(** * AnalizadorSemantico: the semantic analyzer of [main.py]

    A shallow embedding of [SemanticAnalyzer], the [ast.NodeVisitor] of
    [main.py], and the properties of its symbol table, of its walker and of
    its type inference.

    The analyzer keeps one mutable attribute, [self.symbol_table], a list
    of dictionaries created as [[{}]].  Python exceptions leave the
    mutations made before them in place, so a computation is a function
    from the table to an outcome (an exception or a value) together with
    the table as it is afterwards. *)

From Stdlib Require Import ZArith.
From stdpp Require Import base option list gmap strings.

(** ** The syntax trees of the [ast] module *)

(** The binary operators of [ast.BinOp]. *)
Inductive operator :=
| Add | Sub | Mult | MatMult | Div | Mod | Pow
| LShift | RShift | BitOr | BitXor | BitAnd | FloorDiv.

(** The payload [n] of an [ast.Num]: an [int], a [float] (mantissa and
    decimal exponent of the literal) or a [complex] literal. *)
Inductive number :=
| PyInt (z : Z)
| PyFloat (m e : Z)
| PyComplex (m e : Z).

(** The node classes the analyzer meets, each with its fields in the order
    of its [_fields].  Python trees are untyped, so there is one type of
    nodes and the [isinstance] tests of the source are pattern matches.
    The fields [ctx], [type_comment] and [type_ignores] hold no
    expression and are left out. *)
#[warnings="-register-all"] Inductive node :=
| Module (body : list node)
| FunctionDef (name : string) (args : node) (body decorator_list : list node)
    (returns : option node)
| ClassDef (name : string) (bases keywords body decorator_list : list node)
| Return (value : option node)
| Assign (targets : list node) (value : node)
| Expr (value : node)
| Pass
| BinOp (left : node) (op : operator) (right : node)
| Call (func : node) (args keywords : list node)
| Num (n : number)
| Str (s : string)
| Attribute (value : node) (attr : string)
| Name (id : string)
| arguments (posonlyargs args : list node) (vararg : option node)
    (kwonlyargs : list node) (kw_defaults : list (option node))
    (kwarg : option node) (defaults : list node)
| arg (arg_name : string) (annotation : option node)
| keyword (arg_name : option string) (value : node).

(** ** Symbols and the symbol table *)

(** What the analyzer stores as the type of a symbol: one of the classes
    [int], [float], [str], or one of the strings ['function'],
    ['variable'], ['class'] (any string, as the code compares them with
    [==]). *)
Inductive pytype :=
| int
| float
| str
| tag (s : string).

#[global] Instance pytype_eq_dec : EqDecision pytype.
Proof. solve_decision. Defined.

(** [class VarSymbol]. *)
Record VarSymbol := mkVarSymbol { name : string; type : pytype }.

#[global] Instance VarSymbol_eq_dec : EqDecision VarSymbol.
Proof. solve_decision. Defined.

(** A scope is a dictionary from names to symbols; [self.symbol_table] is
    a list of scopes, the innermost last. *)
Abbreviation scope := (gmap string VarSymbol).
Abbreviation symbol_table := (list (gmap string VarSymbol)).

(** ** Exceptions and the analyzer's computations *)

(** The exceptions the analyzer can raise.  [TypeError] is raised with the
    message ["Nodo desconocido "] followed by the node; [IndexError] and
    [AttributeError] are what Python raises on [symbol_table[-1]] of an
    empty list and on a field a node does not have. *)
Inductive exn :=
| ValueError (msg : string)
| TypeError (n : node)
| IndexError
| AttributeError.

Definition M (A : Type) : Type := symbol_table -> (exn + A) * symbol_table.

Definition ret {A} (a : A) : M A := fun st => (inr a, st).

Definition raise {A} (e : exn) : M A := fun st => (inl e, st).

Definition bind {A B} (m : M A) (f : A -> M B) : M B :=
  fun st =>
    match m st with
    | (inl e, st') => (inl e, st')
    | (inr a, st') => f a st'
    end.

(** A computation that only reads the table. *)
Definition reading {A} (f : symbol_table -> exn + A) : M A :=
  fun st => (f st, st).

Declare Scope analyzer_scope.
Delimit Scope analyzer_scope with an.
Notation "x <- m ;; k" := (bind m (fun x => k))
  (at level 100, m at next level, right associativity) : analyzer_scope.
Notation "m ;; k" := (bind m (fun _ => k))
  (at level 100, right associativity) : analyzer_scope.
Local Open Scope analyzer_scope.

(** ** Messages *)

(** [str(t)] for a stored type, as an f-string prints it. *)
Definition format_type (t : pytype) : string :=
  match t with
  | int => "<class 'int'>"
  | float => "<class 'float'>"
  | str => "<class 'str'>"
  | tag s => s
  end.

Definition Variable_no_definida (x : string) : exn :=
  ValueError ("Variable no definida: '" +:+ x +:+ "'").

Definition Funcion_no_definida (f : string) : exn :=
  ValueError ("Funcion no definida: '" +:+ f +:+ "'").

Definition Objetivo_no_soportado : exn :=
  ValueError "Objetivo de asignacion no soportado".

Definition Coincidencia_incorrecta (l r : pytype) : exn :=
  ValueError ("Coincidencia de tipos incorrecta en operacion binaria: "
              +:+ format_type l +:+ " y " +:+ format_type r).

(** ** Operations on the table *)

(** [self.symbol_table[-1][k] = VarSymbol(k, t)]. *)
Definition set_symbol (k : string) (t : pytype) : M unit :=
  fun st =>
    match last st with
    | None => (inl IndexError, st)
    | Some sc => (inr tt, <[pred (length st) := <[k := mkVarSymbol k t]> sc]> st)
    end.

(** [any(x in scope for scope in self.symbol_table)]. *)
Definition in_any_scope (x : string) (st : symbol_table) : bool :=
  existsb (fun sc : scope => bool_decide (is_Some (sc !! x))) st.

(** ** [get_value_type] *)

Fixpoint get_value_type (n : node) (st : symbol_table) : exn + pytype :=
  match n with
  | Name id =>
      match last st with
      | None => inl IndexError
      | Some sc =>
          match sc !! id with
          | Some sym => inr (type sym)
          | None => inl (Variable_no_definida id)
          end
      end
  | BinOp l _ r =>
      match get_value_type l st with
      | inl e => inl e
      | inr left_type =>
          match get_value_type r st with
          | inl e => inl e
          | inr right_type =>
              if bool_decide (left_type = right_type)
                 || bool_decide ((left_type, right_type) ∈ [(int, float); (float, int)])
              then inr float
              else inl (Coincidencia_incorrecta left_type right_type)
          end
      end
  | Num n => inr (match n with PyInt _ => int | _ => float end)
  | Str _ => inr str
  | _ => inl (TypeError n)
  end.

(** ** The visitor *)

(** The pairs of operand types [visit_BinOp] accepts. *)
Definition BinOp_pairs : list (pytype * pytype) :=
  [(int, float); (float, int); (int, int); (float, float); (str, str)].

Section Visitor.

(** [dir(__builtins__)], the names of the interpreter's built-ins: a
    table of the Python run time, not of the analyzer. *)
Variable builtins : list string.

(** [self.visit], as the methods below call it. *)
Variable self_visit : node -> M unit.

Fixpoint visit_each (l : list node) : M unit :=
  match l with
  | [] => ret tt
  | item :: l' => self_visit item ;; visit_each l'
  end.

(** A field that holds a node or [None]. *)
Definition visit_field (v : option node) : M unit :=
  match v with
  | Some item => self_visit item
  | None => ret tt
  end.

(** A list field whose items may be [None] ([kw_defaults]). *)
Fixpoint visit_each_field (l : list (option node)) : M unit :=
  match l with
  | [] => ret tt
  | v :: l' => visit_field v ;; visit_each_field l'
  end.

(** [ast.NodeVisitor.generic_visit]: visit the children, field by field. *)
Definition generic_visit (n : node) : M unit :=
  match n with
  | Module body => visit_each body
  | FunctionDef _ args body decorator_list returns =>
      self_visit args ;; visit_each body ;; visit_each decorator_list ;;
      visit_field returns
  | ClassDef _ bases keywords body decorator_list =>
      visit_each bases ;; visit_each keywords ;; visit_each body ;;
      visit_each decorator_list
  | Return value => visit_field value
  | Assign targets value => visit_each targets ;; self_visit value
  | Expr value => self_visit value
  | Pass => ret tt
  | BinOp l _ r => self_visit l ;; self_visit r
  | Call func args keywords =>
      self_visit func ;; visit_each args ;; visit_each keywords
  | Num _ => ret tt
  | Str _ => ret tt
  | Attribute value _ => self_visit value
  | Name _ => ret tt
  | arguments posonlyargs args vararg kwonlyargs kw_defaults kwarg defaults =>
      visit_each posonlyargs ;; visit_each args ;; visit_field vararg ;;
      visit_each kwonlyargs ;; visit_each_field kw_defaults ;;
      visit_field kwarg ;; visit_each defaults
  | arg _ annotation => visit_field annotation
  | keyword _ value => self_visit value
  end.

Definition visit_Name (n : node) : M unit :=
  match n with
  | Name variable_name =>
      fun st =>
        if in_any_scope variable_name st then (inr tt, st)
        else (inl (Variable_no_definida variable_name), st)
  | _ => raise AttributeError
  end.

(** The loop [for arg in node.args.args] of [visit_FunctionDef].  The items
    are [arg] nodes in every tree that [ast.parse] builds; an item of
    another class stands for a node without the field the loop reads. *)
Fixpoint set_arguments (l : list node) : M unit :=
  match l with
  | [] => ret tt
  | arg a _ :: l' => set_symbol a (tag "variable") ;; set_arguments l'
  | _ :: _ => raise AttributeError
  end.

Definition visit_FunctionDef (n : node) : M unit :=
  match n with
  | FunctionDef name args _ _ _ =>
      set_symbol name (tag "function") ;;
      match args with
      | arguments _ a _ _ _ _ _ => set_arguments a
      | _ => raise AttributeError
      end ;;
      generic_visit n
  | _ => raise AttributeError
  end.

Definition visit_ClassDef (n : node) : M unit :=
  match n with
  | ClassDef name _ _ _ _ =>
      set_symbol name (tag "class") ;;
      generic_visit n
  | _ => raise AttributeError
  end.

(** The loop [for target in node.targets] of [visit_Assign]. *)
Fixpoint assign_targets (targets : list node) (value : node) : M unit :=
  match targets with
  | [] => ret tt
  | Name variable_name :: targets' =>
      value_type <- reading (get_value_type value) ;;
      set_symbol variable_name value_type ;;
      assign_targets targets' value
  | _ :: _ => raise Objetivo_no_soportado
  end.

Definition visit_Assign (n : node) : M unit :=
  match n with
  | Assign targets value => assign_targets targets value
  | _ => raise AttributeError
  end.

Definition visit_Call (n : node) : M unit :=
  match n with
  | Call func args _ =>
      match func with
      | Name func_name =>
          if bool_decide (func_name ∈ builtins) then ret tt
          else raise (Funcion_no_definida func_name)
      | _ => ret tt
      end ;;
      visit_each args
  | _ => raise AttributeError
  end.

Definition visit_BinOp (n : node) : M unit :=
  match n with
  | BinOp l _ r =>
      self_visit l ;;
      self_visit r ;;
      left_type <- reading (get_value_type l) ;;
      right_type <- reading (get_value_type r) ;;
      if bool_decide ((left_type, right_type) ∈ BinOp_pairs) then ret tt
      else raise (Coincidencia_incorrecta left_type right_type)
  | _ => raise AttributeError
  end.

End Visitor.

(** [ast.NodeVisitor.visit]: the method [visit_<class>] when the analyzer
    has one, [generic_visit] otherwise. *)
Fixpoint visit (builtins : list string) (n : node) {struct n} : M unit :=
  match n with
  | Name _ => visit_Name n
  | FunctionDef _ _ _ _ _ => visit_FunctionDef (visit builtins) n
  | ClassDef _ _ _ _ _ => visit_ClassDef (visit builtins) n
  | Assign _ _ => visit_Assign n
  | Call _ _ _ => visit_Call builtins (visit builtins) n
  | BinOp _ _ _ => visit_BinOp (visit builtins) n
  | _ => generic_visit (visit builtins) n
  end.

(** [dir(__builtins__)] of CPython 3.8, when [main.py] runs as the main
    program (so that [__builtins__] is the module [builtins]). *)
Definition dir_builtins : list string :=
  [ "ArithmeticError"; "AssertionError"; "AttributeError"; "BaseException";
    "BlockingIOError"; "BrokenPipeError"; "BufferError"; "BytesWarning";
    "ChildProcessError"; "ConnectionAbortedError"; "ConnectionError";
    "ConnectionRefusedError"; "ConnectionResetError"; "DeprecationWarning";
    "EOFError"; "Ellipsis"; "EnvironmentError"; "Exception"; "False";
    "FileExistsError"; "FileNotFoundError"; "FloatingPointError";
    "FutureWarning"; "GeneratorExit"; "IOError"; "ImportError";
    "ImportWarning"; "IndentationError"; "IndexError"; "InterruptedError";
    "IsADirectoryError"; "KeyError"; "KeyboardInterrupt"; "LookupError";
    "MemoryError"; "ModuleNotFoundError"; "NameError"; "None";
    "NotADirectoryError"; "NotImplemented"; "NotImplementedError"; "OSError";
    "OverflowError"; "PendingDeprecationWarning"; "PermissionError";
    "ProcessLookupError"; "RecursionError"; "ReferenceError";
    "ResourceWarning"; "RuntimeError"; "RuntimeWarning";
    "StopAsyncIteration"; "StopIteration"; "SyntaxError"; "SyntaxWarning";
    "SystemError"; "SystemExit"; "TabError"; "TimeoutError"; "True";
    "TypeError"; "UnboundLocalError"; "UnicodeDecodeError";
    "UnicodeEncodeError"; "UnicodeError"; "UnicodeTranslateError";
    "UnicodeWarning"; "UserWarning"; "ValueError"; "Warning";
    "ZeroDivisionError"; "__build_class__"; "__debug__"; "__doc__";
    "__import__"; "__loader__"; "__name__"; "__package__"; "__spec__";
    "abs"; "all"; "any"; "ascii"; "bin"; "bool"; "breakpoint"; "bytearray";
    "bytes"; "callable"; "chr"; "classmethod"; "compile"; "complex";
    "copyright"; "credits"; "delattr"; "dict"; "dir"; "divmod"; "enumerate";
    "eval"; "exec"; "exit"; "filter"; "float"; "format"; "frozenset";
    "getattr"; "globals"; "hasattr"; "hash"; "help"; "hex"; "id"; "input";
    "int"; "isinstance"; "issubclass"; "iter"; "len"; "license"; "list";
    "locals"; "map"; "max"; "memoryview"; "min"; "next"; "object"; "oct";
    "open"; "ord"; "pow"; "print"; "property"; "quit"; "range"; "repr";
    "reversed"; "round"; "set"; "setattr"; "slice"; "sorted"; "staticmethod";
    "str"; "sum"; "super"; "tuple"; "type"; "vars"; "zip" ].

(** ** [analyze_semantics] *)

(** What [analyze_semantics] prints: ["Analisis semantico aprobado."], or
    ["Fallo en el analisis semantico: "] and the exception caught. *)
Inductive verdict :=
| Aprobado
| Fallo (e : exn).

(** The table of a new [SemanticAnalyzer]: [[{}]]. *)
Definition initial_table : symbol_table := [∅].

(** [analyze_semantics], from the tree [ast.parse] returned on: a new
    analyzer visits the tree, and any exception is caught and reported. *)
Definition analyze_semantics (builtins : list string) (tree : node) : verdict :=
  match fst (visit builtins tree initial_table) with
  | inr _ => Aprobado
  | inl e => Fallo e
  end.

(** [isinstance(n, ast.Name)]. *)
Definition is_Name (n : node) : bool :=
  match n with
  | Name _ => true
  | _ => false
  end.

(** ** Tables that differ in what the innermost scope binds *)

(** [table_le st st']: both tables have the same scopes below the innermost
    one, and the innermost scope of [st'] binds every name that the
    innermost scope of [st] binds. *)
Inductive table_le : symbol_table -> symbol_table -> Prop :=
| table_le_nil : table_le [] []
| table_le_snoc (pre : symbol_table) (sc sc' : scope) :
    dom sc ⊆ dom sc' -> table_le (pre ++ [sc]) (pre ++ [sc']).

(** A computation that leaves the table [table_le] what it was, whatever
    its outcome. *)
Definition extends {A} (m : M A) : Prop :=
  forall st, table_le st (snd (m st)).

(** The parameter names [arg.arg for arg in node.args.args]. *)
Definition parameter_names (params : list node) : list string :=
  flat_map (fun a => match a with arg x _ => [x] | _ => [] end) params.

(** ** A discipline of numeric operands

    A program is checked, in the order of the walk, against two sets of
    names: [D], the names bound so far (by an assignment, or as the name of a
    function, of a class or of a parameter of [node.args.args]), and [N],
    those among them whose last binding is an assignment of a numeric
    expression. *)

(** The names of the targets that are plain names. *)
Definition target_names (targets : list node) : list string :=
  flat_map (fun t => match t with Name x => [x] | _ => [] end) targets.

(** Numeric expressions: numbers, names in [N], and binary operations of
    numeric expressions. *)
Fixpoint numeric_expr (N : gset string) (e : node) : bool :=
  match e with
  | Num _ => true
  | Name x => bool_decide (x ∈ N)
  | BinOp l _ r => numeric_expr N l && numeric_expr N r
  | _ => false
  end.

(** Expressions that use declared names only: literals, names in [D],
    numeric binary operations, attributes of such expressions, and calls
    whose callee is a built-in name, or such an expression that is not a
    name, and whose arguments and keyword values are such expressions. *)
Fixpoint declared_expr (b : list string) (D N : gset string) (e : node) : bool :=
  match e with
  | Num _ => true
  | Str _ => true
  | Name x => bool_decide (x ∈ D)
  | BinOp _ _ _ => numeric_expr N e
  | Attribute value _ => declared_expr b D N value
  | Call func args kws =>
      match func with
      | Name f => bool_decide (f ∈ b)
      | _ => declared_expr b D N func
      end
      && forallb (declared_expr b D N) args
      && forallb (fun k => match k with
                           | keyword _ v => declared_expr b D N v
                           | _ => false
                           end) kws
  | _ => false
  end.

(** An optional expression, a parameter with its annotation, a keyword
    with its value. *)
Definition declared_field (b : list string) (D N : gset string) (v : option node) : bool :=
  match v with
  | Some e => declared_expr b D N e
  | None => true
  end.

Definition declared_arg (b : list string) (D N : gset string) (p : node) : bool :=
  match p with
  | arg _ annotation => declared_field b D N annotation
  | _ => false
  end.

Definition declared_keyword (b : list string) (D N : gset string) (k : node) : bool :=
  match k with
  | keyword _ v => declared_expr b D N v
  | _ => false
  end.

(** The fields of an [arguments] node. *)
Definition declared_arguments (b : list string) (D N : gset string)
    (posonlyargs params : list node) (vararg : option node) (kwonlyargs : list node)
    (kw_defaults : list (option node)) (kwarg : option node) (defaults : list node)
  : bool :=
  forallb (declared_arg b D N) posonlyargs
  && forallb (declared_arg b D N) params
  && match vararg with Some p => declared_arg b D N p | None => true end
  && forallb (declared_arg b D N) kwonlyargs
  && forallb (declared_field b D N) kw_defaults
  && match kwarg with Some p => declared_arg b D N p | None => true end
  && forallb (declared_expr b D N) defaults.

(** An assignment: every target is a plain name, and the right-hand side is
    a numeric expression, a string, or a declared name. *)
Definition declared_assign (D N : gset string) (targets : list node) (value : node)
  : option (gset string * gset string) :=
  let xs : gset string := list_to_set (target_names targets) in
  if forallb is_Name targets then
    if numeric_expr N value then Some (D ∪ xs, N ∪ xs)
    else
      match value with
      | Str _ => Some (D ∪ xs, N ∖ xs)
      | Name y => if bool_decide (y ∈ D) then Some (D ∪ xs, N ∖ xs) else None
      | _ => None
      end
  else None.

(** The statements of a body, one after the other. *)
Section declared_body.

Variable check : node -> gset string -> gset string -> option (gset string * gset string).

Fixpoint declared_body (body : list node) (D N : gset string)
  : option (gset string * gset string) :=
  match body with
  | [] => Some (D, N)
  | s :: body' =>
      match check s D N with
      | Some (D', N') => declared_body body' D' N'
      | None => None
      end
  end.

End declared_body.

(** A statement that uses declared names only, and the sets after it.  The
    sets are not restored after the body of a function or of a class, as
    the analyzer has one scope. *)
Fixpoint declared_stmt (b : list string) (s : node) (D N : gset string) {struct s}
  : option (gset string * gset string) :=
  match s with
  | Assign targets value => declared_assign D N targets value
  | Expr e => if declared_expr b D N e then Some (D, N) else None
  | Return value => if declared_field b D N value then Some (D, N) else None
  | Pass => Some (D, N)
  | FunctionDef name
      (arguments posonlyargs params vararg kwonlyargs kw_defaults kwarg defaults)
      body decorator_list returns =>
      let xs : gset string := {[name]} ∪ list_to_set (parameter_names params) in
      if declared_arguments b (D ∪ xs) (N ∖ xs)
           posonlyargs params vararg kwonlyargs kw_defaults kwarg defaults
      then
        match declared_body (declared_stmt b) body (D ∪ xs) (N ∖ xs) with
        | Some (D', N') =>
            if forallb (declared_expr b D' N') decorator_list
               && declared_field b D' N' returns
            then Some (D', N') else None
        | None => None
        end
      else None
  | ClassDef name bases keywords body decorator_list =>
      if forallb (declared_expr b (D ∪ {[name]}) (N ∖ {[name]})) bases
         && forallb (declared_keyword b (D ∪ {[name]}) (N ∖ {[name]})) keywords
      then
        match declared_body (declared_stmt b) body (D ∪ {[name]}) (N ∖ {[name]}) with
        | Some (D', N') =>
            if forallb (declared_expr b D' N') decorator_list
            then Some (D', N') else None
        | None => None
        end
      else None
  | _ => None
  end.

(** A module whose statements follow the discipline, from no name bound. *)
Definition numeric_discipline (b : list string) (prog : node) : bool :=
  match prog with
  | Module body =>
      match declared_body (declared_stmt b) body ∅ ∅ with
      | Some _ => true
      | None => false
      end
  | _ => false
  end.

(** What the two sets say of the innermost scope: it binds every name of
    [D], and binds every name of [N] to [int] or to [float]. *)
Definition scope_models (D N : gset string) (sc : scope) : Prop :=
  (forall x, x ∈ D -> is_Some (sc !! x)) /\
  (forall x, x ∈ N ->
     exists sym, sc !! x = Some sym /\ (type sym = int \/ type sym = float)).

(** A statement passes when it is declared: walked from a table of one
    scope that the sets describe, it succeeds and leaves such a table. *)
Definition passes_when_declared (b : list string) (s : node) : Prop :=
  forall (D N D' N' : gset string) (sc : scope),
    scope_models D N sc ->
    declared_stmt b s D N = Some (D', N') ->
    exists sc' : scope,
      visit b s [sc] = (inr tt, [sc']) /\ scope_models D' N' sc'.

(** ** Shapes of trees and of tables *)

(** The node classes whose type [get_value_type] infers; on every other
    class it raises [TypeError]. *)
Definition inferable_class (n : node) : bool :=
  match n with
  | Name _ | BinOp _ _ _ | Num _ | Str _ => true
  | _ => false
  end.

(** Trees in which the walk meets no declaration and no assignment.  The
    callee and the keywords of a call are not walked, so they are not
    looked at. *)
Fixpoint binds_nothing (n : node) : bool :=
  match n with
  | FunctionDef _ _ _ _ _ => false
  | ClassDef _ _ _ _ _ => false
  | Assign _ _ => false
  | Module body => forallb binds_nothing body
  | Return value => match value with Some v => binds_nothing v | None => true end
  | Expr value => binds_nothing value
  | Pass => true
  | BinOp l _ r => binds_nothing l && binds_nothing r
  | Call _ args _ => forallb binds_nothing args
  | Num _ => true
  | Str _ => true
  | Attribute value _ => binds_nothing value
  | Name _ => true
  | arguments posonlyargs args vararg kwonlyargs kw_defaults kwarg defaults =>
      forallb binds_nothing posonlyargs
      && forallb binds_nothing args
      && match vararg with Some v => binds_nothing v | None => true end
      && forallb binds_nothing kwonlyargs
      && forallb (fun o => match o with Some v => binds_nothing v | None => true end)
           kw_defaults
      && match kwarg with Some v => binds_nothing v | None => true end
      && forallb binds_nothing defaults
  | arg _ annotation => match annotation with Some v => binds_nothing v | None => true end
  | keyword _ value => binds_nothing value
  end.

(** [isinstance(n, ast.arg)]. *)
Definition is_arg (n : node) : bool :=
  match n with
  | arg _ _ => true
  | _ => false
  end.

(** Trees shaped as [ast.parse] builds them, as far as the walk reads
    them: the [args] of every function declaration that is walked is an
    [arguments] node whose [args] are [arg] nodes. *)
Fixpoint parser_shaped (n : node) : bool :=
  match n with
  | Module body => forallb parser_shaped body
  | FunctionDef _ args body decorator_list returns =>
      match args with
      | arguments _ params _ _ _ _ _ => forallb is_arg params
      | _ => false
      end
      && parser_shaped args
      && forallb parser_shaped body
      && forallb parser_shaped decorator_list
      && match returns with Some v => parser_shaped v | None => true end
  | ClassDef _ bases keywords body decorator_list =>
      forallb parser_shaped bases
      && forallb parser_shaped keywords
      && forallb parser_shaped body
      && forallb parser_shaped decorator_list
  | Return value => match value with Some v => parser_shaped v | None => true end
  | Assign _ _ => true
  | Expr value => parser_shaped value
  | Pass => true
  | BinOp l _ r => parser_shaped l && parser_shaped r
  | Call _ args _ => forallb parser_shaped args
  | Num _ => true
  | Str _ => true
  | Attribute value _ => parser_shaped value
  | Name _ => true
  | arguments posonlyargs args vararg kwonlyargs kw_defaults kwarg defaults =>
      forallb parser_shaped posonlyargs
      && forallb parser_shaped args
      && match vararg with Some v => parser_shaped v | None => true end
      && forallb parser_shaped kwonlyargs
      && forallb (fun o => match o with Some v => parser_shaped v | None => true end)
           kw_defaults
      && match kwarg with Some v => parser_shaped v | None => true end
      && forallb parser_shaped defaults
  | arg _ annotation => match annotation with Some v => parser_shaped v | None => true end
  | keyword _ value => parser_shaped value
  end.

(** The diagnostics of the analyzer: the four [ValueError] messages and
    the [TypeError] of [get_value_type]. *)
Definition diagnostic (e : exn) : Prop :=
  (exists x, e = Variable_no_definida x) \/
  (exists f, e = Funcion_no_definida f) \/
  e = Objetivo_no_soportado \/
  (exists l r, e = Coincidencia_incorrecta l r) \/
  (exists n, e = TypeError n).

(** The types the analyzer ever stores in a symbol. *)
Definition stored_types : list pytype :=
  [int; float; str; tag "function"; tag "variable"; tag "class"].

(** A table whose innermost scope holds, under each key, a symbol of that
    name with one of the stored types. *)
Definition well_formed_table (st : symbol_table) : Prop :=
  forall (sc : scope) (k : string) (sym : VarSymbol),
    last st = Some sc -> sc !! k = Some sym ->
    name sym = k /\ type sym ∈ stored_types.

(** A computation that leaves a well-formed table well formed, whatever
    its outcome. *)
Definition keeps_well_formed {A} (m : M A) : Prop :=
  forall st, well_formed_table st -> well_formed_table (snd (m st)).

(** A computation whose failures, from a table that has a scope, are
    diagnostics. *)
Definition reports {A} (m : M A) : Prop :=
  forall st e st', st <> [] -> m st = (inl e, st') -> diagnostic e.

(** ** The order of the walk *)

(** Two computations with the same outcome and table from every table. *)
Definition eqm {A} (m m' : M A) : Prop := forall st, m st = m' st.

(** A field that holds a node or [None], as the list of its nodes. *)
Definition option_list (v : option node) : list node :=
  match v with
  | Some x => [x]
  | None => []
  end.

(** What a visit does at a node before it walks its children: the bindings
    of a declaration, the callee test of a call, nothing elsewhere. *)
Definition prelude (b : list string) (n : node) : M unit :=
  match n with
  | FunctionDef name args _ _ _ =>
      set_symbol name (tag "function") ;;
      match args with
      | arguments _ a _ _ _ _ _ => set_arguments a
      | _ => raise AttributeError
      end
  | ClassDef name _ _ _ _ => set_symbol name (tag "class")
  | Call func _ _ =>
      match func with
      | Name func_name =>
          if bool_decide (func_name ∈ b) then ret tt
          else raise (Funcion_no_definida func_name)
      | _ => ret tt
      end
  | _ => ret tt
  end.

(** The children a visit walks, in the order it walks them.  A name and an
    assignment walk none; a call walks its arguments only. *)
Definition walked_children (n : node) : list node :=
  match n with
  | Module body => body
  | FunctionDef _ args body decorator_list returns =>
      args :: body ++ decorator_list ++ option_list returns
  | ClassDef _ bases keywords body decorator_list =>
      bases ++ keywords ++ body ++ decorator_list
  | Return value => option_list value
  | Assign _ _ => []
  | Expr value => [value]
  | Pass => []
  | BinOp l _ r => [l; r]
  | Call _ args _ => args
  | Num _ => []
  | Str _ => []
  | Attribute value _ => [value]
  | Name _ => []
  | arguments posonlyargs args vararg kwonlyargs kw_defaults kwarg defaults =>
      posonlyargs ++ args ++ option_list vararg ++ kwonlyargs
      ++ omap id kw_defaults ++ option_list kwarg ++ defaults
  | arg _ annotation => option_list annotation
  | keyword _ value => [value]
  end.

(** What a visit does after it walked the children: the type check of a
    binary operation, nothing elsewhere. *)
Definition postlude (n : node) : M unit :=
  match n with
  | BinOp l _ r =>
      left_type <- reading (get_value_type l) ;;
      right_type <- reading (get_value_type r) ;;
      if bool_decide ((left_type, right_type) ∈ BinOp_pairs) then ret tt
      else raise (Coincidencia_incorrecta left_type right_type)
  | _ => ret tt
  end.

(** The name that [get_value_type] looks up at a place of an expression:
    the expression itself when it is a name, or a place of the left
    operand ([0]) or, when the type of the left operand is inferred, of the
    right operand ([1]) of a binary operation. *)
Fixpoint lookup_at (path : list nat) (e : node) (st : symbol_table) : option string :=
  match path, e with
  | [], Name x => Some x
  | 0 :: path', BinOp l _ _ => lookup_at path' l st
  | 1 :: path', BinOp l _ r =>
      match get_value_type l st with
      | inr _ => lookup_at path' r st
      | inl _ => None
      end
  | _, _ => None
  end.

(** The use of a name that the walk of a node arrives at, along a path of
    child indexes, with the table it is then in: at each node of the path
    what the visit does first and the children before the path have passed.
    The path ends at a name, or continues in the right-hand side of an
    assignment whose first target is a plain name. *)
Fixpoint use_at (b : list string) (path : list nat) (n : node) (st : symbol_table)
  : option (string * symbol_table) :=
  match n with
  | Assign (Name _ :: _) value =>
      match lookup_at path value st with
      | Some x => Some (x, st)
      | None => None
      end
  | _ =>
      match path with
      | [] =>
          match n with
          | Name x => Some (x, st)
          | _ => None
          end
      | i :: path' =>
          match prelude b n st with
          | (inr _, st0) =>
              match visit_each (visit b) (take i (walked_children n)) st0 with
              | (inr _, st1) =>
                  match walked_children n !! i with
                  | Some c => use_at b path' c st1
                  | None => None
                  end
              | (inl _, _) => None
              end
          | (inl _, _) => None
          end
      end
  end.

(** ** Names bound before they are used *)


(** The statements of a body, one after the other, each with the names
    bound by those before it. *)
Section bound_body.

Variable check : node -> gset string -> option (gset string).


End bound_body.


(** The diagnostics other than the undefined name: a callee that is not a
    built-in, an unsupported assignment target, a mismatch of two types
    that are not both numeric, a node of a class that type inference has no
    case for. *)
Definition other_diagnostic (b : list string) (e : exn) : Prop :=
  (exists f, e = Funcion_no_definida f /\ f ∉ b) \/
  e = Objetivo_no_soportado \/
  (exists l r, e = Coincidencia_incorrecta l r /\
     (l, r) ∉ [(int, float); (float, int); (int, int); (float, float)]) \/
  (exists n, e = TypeError n /\ inferable_class n = false).

(** The innermost scope of the table binds every name of [D]. *)
Definition covers (D : gset string) (st : symbol_table) : Prop :=
  exists (pre : symbol_table) (sc : scope),
    st = pre ++ [sc] /\ forall x, x ∈ D -> is_Some (sc !! x).

(** An outcome that is a success with the names of [D] bound, or a failure
    with a diagnostic other than the undefined name. *)
Definition passes_or_reports (b : list string) (D : gset string)
    (r : (exn + unit) * symbol_table) : Prop :=
  match r with
  | (inr _, st') => covers D st'
  | (inl e, _) => other_diagnostic b e
  end.

(** ** Induction on nodes, with the children in list and optional fields *)

Section node_induction.

Variable P : node -> Prop.

Definition on_field (v : option node) : Prop :=
  match v with
  | Some n => P n
  | None => True
  end.

Hypothesis HModule : forall body, Forall P body -> P (Module body).
Hypothesis HFunctionDef : forall name args body decorator_list returns,
    P args -> Forall P body -> Forall P decorator_list -> on_field returns ->
    P (FunctionDef name args body decorator_list returns).
Hypothesis HClassDef : forall name bases keywords body decorator_list,
    Forall P bases -> Forall P keywords -> Forall P body ->
    Forall P decorator_list ->
    P (ClassDef name bases keywords body decorator_list).
Hypothesis HReturn : forall value, on_field value -> P (Return value).
Hypothesis HAssign : forall targets value,
    Forall P targets -> P value -> P (Assign targets value).
Hypothesis HExpr : forall value, P value -> P (Expr value).
Hypothesis HPass : P Pass.
Hypothesis HBinOp : forall l op r, P l -> P r -> P (BinOp l op r).
Hypothesis HCall : forall func args keywords,
    P func -> Forall P args -> Forall P keywords -> P (Call func args keywords).
Hypothesis HNum : forall n, P (Num n).
Hypothesis HStr : forall s, P (Str s).
Hypothesis HAttribute : forall value attr, P value -> P (Attribute value attr).
Hypothesis HName : forall id, P (Name id).
Hypothesis Harguments :
  forall posonlyargs args vararg kwonlyargs kw_defaults kwarg defaults,
    Forall P posonlyargs -> Forall P args -> on_field vararg ->
    Forall P kwonlyargs -> Forall on_field kw_defaults -> on_field kwarg ->
    Forall P defaults ->
    P (arguments posonlyargs args vararg kwonlyargs kw_defaults kwarg defaults).
Hypothesis Harg : forall a annotation, on_field annotation -> P (arg a annotation).
Hypothesis Hkeyword : forall a value, P value -> P (keyword a value).

Fixpoint node_ind' (n : node) : P n :=
  let each :=
    fix each (l : list node) : Forall P l :=
      match l with
      | [] => @List.Forall_nil node P
      | x :: l' => @List.Forall_cons node P x l' (node_ind' x) (each l')
      end in
  let field := fun v : option node =>
    match v return on_field v with
    | Some x => node_ind' x
    | None => I
    end in
  let each_field :=
    fix each_field (l : list (option node)) : Forall on_field l :=
      match l with
      | [] => @List.Forall_nil (option node) on_field
      | v :: l' => @List.Forall_cons (option node) on_field v l' (field v) (each_field l')
      end in
  match n with
  | Module body => HModule body (each body)
  | FunctionDef name args body decorator_list returns =>
      HFunctionDef name args body decorator_list returns
        (node_ind' args) (each body) (each decorator_list) (field returns)
  | ClassDef name bases keywords body decorator_list =>
      HClassDef name bases keywords body decorator_list
        (each bases) (each keywords) (each body) (each decorator_list)
  | Return value => HReturn value (field value)
  | Assign targets value => HAssign targets value (each targets) (node_ind' value)
  | Expr value => HExpr value (node_ind' value)
  | Pass => HPass
  | BinOp l op r => HBinOp l op r (node_ind' l) (node_ind' r)
  | Call func args keywords =>
      HCall func args keywords (node_ind' func) (each args) (each keywords)
  | Num n => HNum n
  | Str s => HStr s
  | Attribute value attr => HAttribute value attr (node_ind' value)
  | Name id => HName id
  | arguments posonlyargs args vararg kwonlyargs kw_defaults kwarg defaults =>
      Harguments posonlyargs args vararg kwonlyargs kw_defaults kwarg defaults
        (each posonlyargs) (each args) (field vararg) (each kwonlyargs)
        (each_field kw_defaults) (field kwarg) (each defaults)
  | arg a annotation => Harg a annotation (field annotation)
  | keyword a value => Hkeyword a value (node_ind' value)
  end.

End node_induction.

(** * Properties *)

(** ** The computations, unfolded *)

Lemma bind_ok {A B} (m : M A) (f : A -> M B) st a st' :
  m st = (inr a, st') -> bind m f st = f a st'.
Proof. unfold bind; intros ->; reflexivity. Qed.

Lemma bind_raises {A B} (m : M A) (f : A -> M B) st e st' :
  m st = (inl e, st') -> bind m f st = (inl e, st').
Proof. unfold bind; intros ->; reflexivity. Qed.

Lemma bind_inv_ok {A B} (m : M A) (f : A -> M B) st b st' :
  bind m f st = (inr b, st') ->
  exists a st1, m st = (inr a, st1) /\ f a st1 = (inr b, st').
Proof.
  unfold bind; destruct (m st) as [[e|a] st1]; intros H; [discriminate|].
  exists a, st1; split; [reflexivity|exact H].
Qed.

(** What [set_symbol] does on a table with an innermost scope. *)
Lemma set_symbol_snoc k t (pre : symbol_table) (sc : scope) :
  set_symbol k t (pre ++ [sc]) = (inr tt, pre ++ [<[k := mkVarSymbol k t]> sc]).
Proof.
  unfold set_symbol. rewrite last_snoc. f_equal.
  rewrite length_app; simpl.
  replace (pred (length pre + 1)) with (length pre + 0) by lia.
  rewrite insert_app_r; reflexivity.
Qed.

Lemma set_symbol_nil k t : set_symbol k t [] = (inl IndexError, []).
Proof. reflexivity. Qed.

(** A table is empty or ends with its innermost scope. *)
Lemma table_cases (st : symbol_table) :
  st = [] \/ exists pre sc, st = pre ++ [sc].
Proof.
  induction st as [|sc pre _] using rev_ind; [left; reflexivity|].
  right; exists pre, sc; reflexivity.
Qed.

(** [visit] at each class with a method of its own. *)
Lemma visit_Name_eq b x st :
  visit b (Name x) st =
  if in_any_scope x st then (inr tt, st) else (inl (Variable_no_definida x), st).
Proof. reflexivity. Qed.

Lemma visit_Module_eq b body : visit b (Module body) = visit_each (visit b) body.
Proof. reflexivity. Qed.

Lemma visit_Expr_eq b e : visit b (Expr e) = visit b e.
Proof. reflexivity. Qed.

Lemma visit_Assign_eq b targets value :
  visit b (Assign targets value) = assign_targets targets value.
Proof. reflexivity. Qed.

Lemma visit_each_app v (l1 l2 : list node) st :
  visit_each v (l1 ++ l2) st = bind (visit_each v l1) (fun _ => visit_each v l2) st.
Proof.
  revert st; induction l1 as [|x l1 IH]; intros st; simpl.
  - reflexivity.
  - unfold bind in *. destruct (v x st) as [[e|[]] st1]; [reflexivity|].
    apply IH.
Qed.

(** The walk of a module body up to a statement: when the statements before
    it pass, the verdict is decided by the rest of the walk. *)
Lemma analyze_after_prefix b pre s post st :
  visit_each (visit b) pre initial_table = (inr tt, st) ->
  analyze_semantics b (Module (pre ++ s :: post)) =
  match fst (bind (visit b s) (fun _ => visit_each (visit b) post) st) with
  | inr _ => Aprobado
  | inl e => Fallo e
  end.
Proof.
  intros Hpre. unfold analyze_semantics.
  rewrite visit_Module_eq, visit_each_app, (bind_ok _ _ _ _ _ Hpre).
  reflexivity.
Qed.

Lemma analyze_fails_at b pre s post st e st' :
  visit_each (visit b) pre initial_table = (inr tt, st) ->
  visit b s st = (inl e, st') ->
  analyze_semantics b (Module (pre ++ s :: post)) = Fallo e.
Proof.
  intros Hpre Hs. rewrite (analyze_after_prefix _ _ _ _ _ Hpre).
  rewrite (bind_raises _ _ _ _ _ Hs). reflexivity.
Qed.

Lemma visit_Call_eq b func args kws :
  visit b (Call func args kws) = visit_Call b (visit b) (Call func args kws).
Proof. reflexivity. Qed.

Lemma visit_BinOp_eq b l op r :
  visit b (BinOp l op r) = visit_BinOp (visit b) (BinOp l op r).
Proof. reflexivity. Qed.

Lemma get_value_type_Name_snoc x (pre : symbol_table) (sc : scope) :
  get_value_type (Name x) (pre ++ [sc]) =
  match sc !! x with
  | Some sym => inr (type sym)
  | None => inl (Variable_no_definida x)
  end.
Proof. simpl. rewrite last_snoc. reflexivity. Qed.

Lemma in_any_scope_snoc x (pre : symbol_table) (sc : scope) :
  is_Some (sc !! x) -> in_any_scope x (pre ++ [sc]) = true.
Proof.
  intros Hsc. unfold in_any_scope. rewrite existsb_app. simpl.
  rewrite bool_decide_eq_true_2 by exact Hsc. apply orb_true_r.
Qed.

(** ** Type inference of a binary operation (C7) *)

(** C7, as stated, fails: both operands of [1 + 2] have type [int] and the
    type inferred for the operation is [float]. *)
Lemma get_value_type_int_int_is_float :
  let e := BinOp (Num (PyInt 1)) Add (Num (PyInt 2)) in
  get_value_type (Num (PyInt 1)) initial_table = inr int /\
  get_value_type (Num (PyInt 2)) initial_table = inr int /\
  get_value_type e initial_table = inr float /\
  get_value_type e initial_table <> inr int.
Proof. repeat split; try reflexivity. discriminate. Qed.

(** C7 (amended): type inference of a binary operation follows the table
    of [get_value_type], in which (int, int) gives [float]: for every binary
    operation whose two operands both have type [int], the inferred type is
    [float], not [int].  The other numeric pairs, (float, float),
    (int, float) and (float, int), give [float] too, and two operand types
    that differ and are not one [int] and one [float] are rejected with the
    type-mismatch error naming both. *)
Theorem get_value_type_BinOp_float (l r : node) (op : operator) (st : symbol_table)
    (lt rt : pytype) :
  get_value_type l st = inr lt ->
  get_value_type r st = inr rt ->
  (lt = int -> rt = int ->
   get_value_type (BinOp l op r) st = inr float /\
   get_value_type (BinOp l op r) st <> inr int) /\
  ((lt = int \/ lt = float) -> (rt = int \/ rt = float) ->
   get_value_type (BinOp l op r) st = inr float) /\
  (lt <> rt -> ~ ((lt = int \/ lt = float) /\ (rt = int \/ rt = float)) ->
   get_value_type (BinOp l op r) st = inl (Coincidencia_incorrecta lt rt)).
Proof.
  intros Hl Hr.
  assert (Hnum : (lt = int \/ lt = float) -> (rt = int \/ rt = float) ->
                 get_value_type (BinOp l op r) st = inr float).
  { intros Hlt Hrt. simpl. rewrite Hl, Hr.
    destruct Hlt as [-> | ->], Hrt as [-> | ->]; reflexivity. }
  split; [|split].
  - intros -> ->. split.
    + apply Hnum; left; reflexivity.
    + rewrite Hnum by (left; reflexivity). discriminate.
  - exact Hnum.
  - intros Hne Hmix. simpl. rewrite Hl, Hr.
    rewrite (bool_decide_eq_false_2 (lt = rt)) by exact Hne.
    rewrite bool_decide_eq_false_2; [reflexivity|].
    rewrite !elem_of_cons, elem_of_nil.
    intros [H|[H|[]]]; injection H as -> ->; apply Hmix; tauto.
Qed.

Lemma get_value_type_BinOp_float_witness :
  get_value_type (BinOp (Num (PyInt 1)) Add (Num (PyInt 2))) initial_table = inr float /\
  get_value_type (BinOp (Num (PyInt 1)) Add (Str "s")) initial_table
  = inl (Coincidencia_incorrecta int str).
Proof.
  split.
  - destruct (get_value_type_BinOp_float (Num (PyInt 1)) (Num (PyInt 2)) Add
                initial_table int int eq_refl eq_refl) as [Hint _].
    exact (proj1 (Hint eq_refl eq_refl)).
  - destruct (get_value_type_BinOp_float (Num (PyInt 1)) (Str "s") Add
                initial_table int str eq_refl eq_refl) as [_ [_ Hdiff]].
    apply Hdiff.
    + discriminate.
    + intros [_ [H|H]]; discriminate H.
Defined.

(** ** Calls (C5, C10) *)

Lemma visit_Call_Name b f args kws st :
  visit b (Call (Name f) args kws) st =
  if bool_decide (f ∈ b) then visit_each (visit b) args st
  else (inl (Funcion_no_definida f), st).
Proof.
  rewrite visit_Call_eq. unfold visit_Call.
  destruct (bool_decide (f ∈ b)); reflexivity.
Qed.

(** C5, as stated, fails: [def f(): pass] followed by [f()] calls a function
    declared earlier in the program, and the analysis fails with the
    undefined-call error naming [f]. *)
Lemma call_of_declared_function_fails :
  analyze_semantics dir_builtins
    (Module [ FunctionDef "f" (arguments [] [] None [] [] None []) [Pass] [] None;
              Expr (Call (Name "f") [] []) ])
  = Fallo (Funcion_no_definida "f").
Proof. vm_compute. reflexivity. Qed.

(** C5 (amended): call validation consults the names of the built-ins and
    never the symbol table.  A call whose callee is a plain name that is a
    built-in passes the callee check, and its outcome is that of walking
    its arguments; a call whose callee is a plain name that is not a
    built-in fails with the undefined-call error naming the callee, whatever
    the table holds for that name, so also when the statements walked
    before it declared the name as a function or as a variable. *)
Theorem visit_Call_consults_builtins (b : list string) (f : string)
    (args kws : list node) (st : symbol_table) :
  visit b (Call (Name f) args kws) st =
    (if bool_decide (f ∈ b) then visit_each (visit b) args st
     else (inl (Funcion_no_definida f), st)) /\
  (forall pre post st',
     f ∉ b ->
     visit_each (visit b) pre initial_table = (inr tt, st') ->
     analyze_semantics b (Module (pre ++ Expr (Call (Name f) args kws) :: post))
     = Fallo (Funcion_no_definida f)).
Proof.
  split; [apply visit_Call_Name|].
  intros pre post st' Hf Hpre.
  apply (analyze_fails_at b pre _ post st' _ st' Hpre).
  rewrite visit_Expr_eq, visit_Call_Name, bool_decide_eq_false_2 by exact Hf.
  reflexivity.
Qed.

Lemma visit_Call_consults_builtins_witness :
  analyze_semantics dir_builtins
    (Module ([ Assign [Name "g"] (Num (PyInt 1)) ]
             ++ Expr (Call (Name "g") [] []) :: []))
  = Fallo (Funcion_no_definida "g").
Proof.
  refine (proj2 (visit_Call_consults_builtins dir_builtins "g" [] [] initial_table)
            [ Assign [Name "g"] (Num (PyInt 1)) ] [] _ _ eq_refl).
  vm_compute. intros H. apply list_elem_of_In in H. vm_compute in H.
  repeat (destruct H as [H|H]; [discriminate H|]). exact H.
Defined.

Lemma visit_Call_other b func args kws st :
  is_Name func = false ->
  visit b (Call func args kws) st = visit_each (visit b) args st.
Proof.
  intros Hfunc. destruct func; try discriminate Hfunc; reflexivity.
Qed.

(** C10: for every call whose callee is not a plain name, the callee is not
    validated and not walked: the outcome of the call is that of walking
    its arguments, and no undefined-call error is raised for the call. *)
Theorem visit_Call_callee_not_Name (b : list string) (func : node)
    (args kws : list node) (st : symbol_table) :
  is_Name func = false ->
  visit b (Call func args kws) st = visit_each (visit b) args st.
Proof.
  intros Hfunc. rewrite visit_Call_eq. unfold visit_Call.
  destruct func; try discriminate Hfunc; reflexivity.
Qed.

Lemma visit_Call_callee_not_Name_witness :
  visit dir_builtins (Call (Attribute (Name "x") "foo") [Num (PyInt 1)] []) initial_table
  = visit_each (visit dir_builtins) [Num (PyInt 1)] initial_table.
Proof.
  apply (visit_Call_callee_not_Name dir_builtins (Attribute (Name "x") "foo")).
  reflexivity.
Defined.

(** ** The type check of a binary operation (C6) *)

(** C6, as stated, fails: ["a" - "b"] has two [str] operands and an
    arithmetic operator, and [visit_BinOp] accepts it. *)
Lemma visit_BinOp_accepts_str_minus_str :
  visit dir_builtins (BinOp (Str "a") Sub (Str "b")) initial_table
  = (inr tt, initial_table).
Proof. reflexivity. Qed.

Lemma BinOp_pairs_spec (lt rt : pytype) :
  (lt, rt) ∈ BinOp_pairs <->
  (lt = int \/ lt = float) /\ (rt = int \/ rt = float) \/ lt = str /\ rt = str.
Proof.
  unfold BinOp_pairs. rewrite !elem_of_cons, elem_of_nil. split.
  - intros [H|[H|[H|[H|[H|[]]]]]]; injection H as -> ->; tauto.
  - intros [[[->| ->] [->| ->]]|[-> ->]]; tauto.
Qed.

(** C6 (amended): [visit_BinOp] never consults the operator.  Once both
    operands are walked and their types inferred, it accepts exactly the
    pairs (int, int), (float, float), (int, float), (float, int) and
    (str, str), for every operator; every other pair of operand types, so
    (int, str), (str, int) and every pair with a function, class or
    variable tag, fails with the type-mismatch error naming both types. *)
Theorem visit_BinOp_accepted_pairs (b : list string) (l r : node) (op : operator)
    (st st1 st2 : symbol_table) (lt rt : pytype) :
  visit b l st = (inr tt, st1) ->
  visit b r st1 = (inr tt, st2) ->
  get_value_type l st2 = inr lt ->
  get_value_type r st2 = inr rt ->
  ((lt = int \/ lt = float) /\ (rt = int \/ rt = float) \/ lt = str /\ rt = str ->
   visit b (BinOp l op r) st = (inr tt, st2)) /\
  (~ ((lt = int \/ lt = float) /\ (rt = int \/ rt = float) \/ lt = str /\ rt = str) ->
   visit b (BinOp l op r) st = (inl (Coincidencia_incorrecta lt rt), st2)) /\
  (forall s, lt = tag s \/ rt = tag s ->
   visit b (BinOp l op r) st = (inl (Coincidencia_incorrecta lt rt), st2)).
Proof.
  intros Hl Hr Hlt Hrt.
  assert (Hvisit : visit b (BinOp l op r) st =
            if bool_decide ((lt, rt) ∈ BinOp_pairs) then (inr tt, st2)
            else (inl (Coincidencia_incorrecta lt rt), st2)).
  { rewrite visit_BinOp_eq. unfold visit_BinOp.
    rewrite (bind_ok _ _ _ _ _ Hl), (bind_ok _ _ _ _ _ Hr).
    unfold bind, reading. rewrite Hlt, Hrt.
    destruct (bool_decide _); reflexivity. }
  assert (Hno : ~ ((lt = int \/ lt = float) /\ (rt = int \/ rt = float)
                   \/ lt = str /\ rt = str) ->
           visit b (BinOp l op r) st = (inl (Coincidencia_incorrecta lt rt), st2)).
  { intros Hout. rewrite Hvisit, bool_decide_eq_false_2; [reflexivity|].
    rewrite BinOp_pairs_spec. exact Hout. }
  split; [|split].
  - intros Hin. rewrite Hvisit, bool_decide_eq_true_2; [reflexivity|].
    rewrite BinOp_pairs_spec. exact Hin.
  - exact Hno.
  - intros s Htag. apply Hno.
    intros [[[?|?] [?|?]]|[? ?]]; destruct Htag; congruence.
Qed.

Lemma visit_BinOp_accepted_pairs_witness :
  visit dir_builtins (BinOp (Str "a") Mult (Str "b")) initial_table
  = (inr tt, initial_table) /\
  visit dir_builtins (BinOp (Num (PyInt 1)) Add (Str "s")) initial_table
  = (inl (Coincidencia_incorrecta int str), initial_table).
Proof.
  split.
  - apply (visit_BinOp_accepted_pairs dir_builtins (Str "a") (Str "b") Mult
             initial_table initial_table initial_table str str
             eq_refl eq_refl eq_refl eq_refl).
    right; split; reflexivity.
  - apply (visit_BinOp_accepted_pairs dir_builtins (Num (PyInt 1)) (Str "s") Add
             initial_table initial_table initial_table int str
             eq_refl eq_refl eq_refl eq_refl).
    intros [[_ [H|H]]|[H _]]; discriminate H.
Defined.

(** ** Assignments (C8, C9) *)

Lemma assign_targets_Name x targets value st :
  assign_targets (Name x :: targets) value st =
  match get_value_type value st with
  | inl e => (inl e, st)
  | inr t => bind (set_symbol x t) (fun _ => assign_targets targets value) st
  end.
Proof.
  simpl. unfold bind at 1, reading.
  destruct (get_value_type value st); reflexivity.
Qed.

Lemma assign_targets_not_Name nn targets value st :
  is_Name nn = false ->
  assign_targets (nn :: targets) value st = (inl Objetivo_no_soportado, st).
Proof. destruct nn; intros H; try discriminate H; reflexivity. Qed.

Lemma assign_targets_app ts1 ts2 value st :
  assign_targets (ts1 ++ ts2) value st =
  bind (assign_targets ts1 value) (fun _ => assign_targets ts2 value) st.
Proof.
  revert st; induction ts1 as [|t ts1 IH]; intros st; [reflexivity|].
  destruct (is_Name t) eqn:Ht.
  - destruct t; try discriminate Ht.
    rewrite <- app_comm_cons. unfold bind. rewrite !assign_targets_Name.
    destruct (get_value_type value st) as [e|ty]; [reflexivity|].
    unfold bind. destruct (set_symbol id ty st) as [[e|[]] st1]; [reflexivity|].
    specialize (IH st1). unfold bind in IH. exact IH.
  - rewrite <- app_comm_cons. unfold bind.
    rewrite !assign_targets_not_Name by exact Ht. reflexivity.
Qed.

(** C8, as stated, fails twice: [a = b = 1] has two targets and succeeds,
    binding both names, and [x = y] with [y] undefined is an assignment to a
    single plain name that fails. *)
Lemma visit_Assign_two_targets_succeeds :
  (exists sc : scope,
     visit dir_builtins (Assign [Name "a"; Name "b"] (Num (PyInt 1))) initial_table
     = (inr tt, [sc]) /\
     sc !! "a" = Some (mkVarSymbol "a" int) /\
     sc !! "b" = Some (mkVarSymbol "b" int)) /\
  visit dir_builtins (Assign [Name "x"] (Name "y")) initial_table
  = (inl (Variable_no_definida "y"), initial_table).
Proof.
  split; [|reflexivity].
  eexists. split; [reflexivity|]. split; reflexivity.
Qed.

(** C8 (amended): an assignment to a single plain name succeeds exactly
    when the type of its right-hand side can be inferred, and then rebinds
    the name in the innermost scope to that type; when the inference fails,
    the assignment fails with the error of the inference and the table is
    as it was.  The targets of an assignment are handled from left to
    right, each as an assignment of its own, so an assignment to several
    plain names binds them all; the first target that is not a plain name
    fails with the unsupported-target error. *)
Theorem visit_Assign_targets (b : list string) (x : string) (value : node)
    (pre : symbol_table) (sc : scope) :
  visit b (Assign [Name x] value) (pre ++ [sc]) =
    match get_value_type value (pre ++ [sc]) with
    | inr t => (inr tt, pre ++ [<[x := mkVarSymbol x t]> sc])
    | inl e => (inl e, pre ++ [sc])
    end /\
  (forall ts1 ts2 st,
     visit b (Assign (ts1 ++ ts2) value) st =
     bind (visit b (Assign ts1 value)) (fun _ => visit b (Assign ts2 value)) st) /\
  (forall nn rest st,
     is_Name nn = false ->
     visit b (Assign (nn :: rest) value) st = (inl Objetivo_no_soportado, st)).
Proof.
  split; [|split].
  - rewrite visit_Assign_eq, assign_targets_Name.
    destruct (get_value_type value (pre ++ [sc])) as [e|t]; [reflexivity|].
    unfold bind. rewrite set_symbol_snoc. reflexivity.
  - intros ts1 ts2 st. rewrite !visit_Assign_eq. apply assign_targets_app.
  - intros nn rest st Hnn. rewrite visit_Assign_eq.
    apply assign_targets_not_Name, Hnn.
Qed.

Lemma visit_Assign_targets_witness :
  visit dir_builtins (Assign [Name "x"] (Num (PyFloat 15 (-1)))) ([] ++ [∅])
  = (inr tt, [] ++ [ <["x" := mkVarSymbol "x" float]> ∅ ]) /\
  visit dir_builtins
    (Assign (Attribute (Name "a") "b" :: []) (Num (PyFloat 15 (-1)))) initial_table
  = (inl Objetivo_no_soportado, initial_table).
Proof.
  pose proof (visit_Assign_targets dir_builtins "x" (Num (PyFloat 15 (-1))) [] ∅)
    as [H1 [_ H3]].
  split; [exact H1|].
  apply H3. reflexivity.
Defined.

(** C9, as stated, fails: in [x = a.b = y] with [y] undefined, a plain-name
    target is followed by a target that is not a name, and the handler
    raises the undefined-name error of the right-hand side before it binds
    [x]; the table is untouched and no unsupported-target error is raised. *)
Lemma visit_Assign_infers_before_binding :
  visit dir_builtins
    (Assign [Name "x"; Attribute (Name "a") "b"] (Name "y")) initial_table
  = (inl (Variable_no_definida "y"), initial_table).
Proof. reflexivity. Qed.

(** C9 (amended): assignment handling is not atomic on error.  For an
    assignment whose target list has a plain name followed by a target that
    is not a name, and whose right-hand side has an inferable type, the
    handler first binds the plain name to that type in the innermost scope
    and only then raises the unsupported-target error: the analysis of the
    statement fails and the table is left with the new binding. *)
Theorem visit_Assign_not_atomic (b : list string) (x : string) (nn : node)
    (rest : list node) (value : node) (pre : symbol_table) (sc : scope) (t : pytype) :
  is_Name nn = false ->
  get_value_type value (pre ++ [sc]) = inr t ->
  visit b (Assign (Name x :: nn :: rest) value) (pre ++ [sc])
  = (inl Objetivo_no_soportado, pre ++ [<[x := mkVarSymbol x t]> sc]).
Proof.
  intros Hnn Ht.
  rewrite visit_Assign_eq, assign_targets_Name, Ht.
  unfold bind. rewrite set_symbol_snoc.
  apply assign_targets_not_Name, Hnn.
Qed.

Lemma visit_Assign_not_atomic_witness :
  visit dir_builtins
    (Assign (Name "x" :: Attribute (Name "a") "b" :: []) (Num (PyInt 1))) ([] ++ [∅])
  = (inl Objetivo_no_soportado, [] ++ [ <["x" := mkVarSymbol "x" int]> ∅ ]).
Proof.
  apply (visit_Assign_not_atomic dir_builtins "x" (Attribute (Name "a") "b") []
           (Num (PyInt 1)) [] ∅ int); reflexivity.
Defined.

(** ** The walk keeps the scopes of the table *)

Lemma table_le_refl st : table_le st st.
Proof.
  destruct (table_cases st) as [->|(pre & sc & ->)]; constructor.
  reflexivity.
Qed.

Lemma table_le_trans st1 st2 st3 :
  table_le st1 st2 -> table_le st2 st3 -> table_le st1 st3.
Proof.
  intros H12 H23. destruct H12 as [|pre sc sc' Hsub].
  - exact H23.
  - inversion H23 as [Hnil|pre0 sc0 sc0' Hsub0 Heq].
    + destruct pre; discriminate.
    + apply app_inj_tail in Heq as [-> ->].
      constructor. etrans; eassumption.
Qed.

Lemma extends_ret {A} (a : A) : extends (ret a).
Proof. intros st. apply table_le_refl. Qed.

Lemma extends_raise {A} e : extends (@raise A e).
Proof. intros st. apply table_le_refl. Qed.

Lemma extends_reading {A} (f : symbol_table -> exn + A) : extends (reading f).
Proof. intros st. apply table_le_refl. Qed.

Lemma extends_bind {A B} (m : M A) (f : A -> M B) :
  extends m -> (forall a, extends (f a)) -> extends (bind m f).
Proof.
  intros Hm Hf st. unfold bind.
  specialize (Hm st). destruct (m st) as [[e|a] st1]; simpl in *.
  - exact Hm.
  - eapply table_le_trans; [exact Hm|apply Hf].
Qed.

Lemma extends_set_symbol k t : extends (set_symbol k t).
Proof.
  intros st. destruct (table_cases st) as [->|(pre & sc & ->)].
  - constructor.
  - rewrite set_symbol_snoc. constructor.
    rewrite dom_insert. set_solver.
Qed.

Lemma extends_visit_Name x : extends (visit_Name (Name x)).
Proof.
  intros st. simpl. destruct (in_any_scope x st); apply table_le_refl.
Qed.

Lemma extends_visit_each v (l : list node) :
  Forall (fun n => extends (v n)) l -> extends (visit_each v l).
Proof.
  induction 1 as [|x l Hx _ IH]; simpl.
  - apply extends_ret.
  - apply extends_bind; [exact Hx|intros _; exact IH].
Qed.

Lemma extends_visit_field v (o : option node) :
  on_field (fun n => extends (v n)) o -> extends (visit_field v o).
Proof. destruct o; simpl; [trivial|intros _; apply extends_ret]. Qed.

Lemma extends_visit_each_field v (l : list (option node)) :
  Forall (on_field (fun n => extends (v n))) l -> extends (visit_each_field v l).
Proof.
  induction 1 as [|x l Hx _ IH]; simpl.
  - apply extends_ret.
  - apply extends_bind; [apply extends_visit_field, Hx|intros _; exact IH].
Qed.

Lemma extends_set_arguments (l : list node) : extends (set_arguments l).
Proof.
  induction l as [|a l IH]; simpl.
  - apply extends_ret.
  - destruct a; try apply extends_raise.
    apply extends_bind; [apply extends_set_symbol|intros _; exact IH].
Qed.

Lemma extends_assign_targets (targets : list node) value :
  extends (assign_targets targets value).
Proof.
  induction targets as [|t targets IH]; simpl.
  - apply extends_ret.
  - destruct t; try apply extends_raise.
    apply extends_bind; [apply extends_reading|intros ty].
    apply extends_bind; [apply extends_set_symbol|intros _; exact IH].
Qed.

Ltac extends_step :=
  first
    [ assumption
    | apply extends_ret
    | apply extends_raise
    | apply extends_reading
    | apply extends_set_symbol
    | apply extends_set_arguments
    | apply extends_assign_targets
    | apply extends_visit_Name
    | apply extends_visit_each; assumption
    | apply extends_visit_field; assumption
    | apply extends_visit_each_field; assumption
    | apply extends_bind; [|intros ?] ].

(** Whatever node is visited and whatever the outcome, the table keeps its
    scopes below the innermost one, and the innermost scope keeps the names
    it binds. *)
Lemma extends_visit b (n : node) : extends (visit b n).
Proof.
  induction n using node_ind'; simpl; unfold visit_field in *;
    repeat extends_step.
  - destruct n; repeat extends_step.
  - destruct (bool_decide _); repeat extends_step.
  - destruct n; repeat extends_step.
    destruct (bool_decide _); repeat extends_step.
Qed.

Lemma extends_generic_visit b (n : node) : extends (generic_visit (visit b) n).
Proof.
  assert (Heach : forall l : list node, extends (visit_each (visit b) l)).
  { intros l. apply extends_visit_each, Forall_forall.
    intros x _. apply extends_visit. }
  assert (Hfield : forall o : option node, extends (visit_field (visit b) o)).
  { intros [x|]; simpl; [apply extends_visit|apply extends_ret]. }
  assert (Hfields : forall l : list (option node),
             extends (visit_each_field (visit b) l)).
  { induction l as [|o l IH]; simpl; [apply extends_ret|].
    apply extends_bind; [apply Hfield|intros _; exact IH]. }
  destruct n; simpl;
    repeat first [ apply extends_visit | apply Heach | apply Hfield
                 | apply Hfields | extends_step ].
Qed.

(** A walk that starts from the table of a new analyzer ends with a table
    of one scope. *)
Lemma walk_keeps_one_scope b (body : list node) r st :
  visit_each (visit b) body initial_table = (r, st) ->
  exists sc : scope, st = [sc].
Proof.
  intros Hwalk.
  assert (Hle : table_le initial_table st).
  { change st with (snd (r, st)). rewrite <- Hwalk.
    apply extends_visit_each, Forall_forall. intros x _. apply extends_visit. }
  inversion Hle as [|pre sc sc' _ Heq].
  destruct pre as [|? [|? ?]]; try discriminate Heq.
  exists sc'. reflexivity.
Qed.

(** ** Function declarations (C4) *)

(** C4, as stated, fails: after [def f(a): pass] is walked from the table of
    a new analyzer, the parameter [a] is bound in the module scope, which is
    not the scope it was with the binding of [f] added. *)
Lemma visit_FunctionDef_parameter_leaks :
  exists sc : scope,
    visit dir_builtins
      (FunctionDef "f" (arguments [] [arg "a" None] None [] [] None []) [Pass] [] None)
      initial_table
    = (inr tt, [sc]) /\
    sc !! "a" = Some (mkVarSymbol "a" (tag "variable")) /\
    sc <> <["f" := mkVarSymbol "f" (tag "function")]> ∅.
Proof.
  eexists. split; [reflexivity|]. split; [reflexivity|].
  intros Heq.
  apply (f_equal (fun m : scope => m !! "a")) in Heq.
  vm_compute in Heq. discriminate Heq.
Qed.

Lemma set_arguments_binds (params : list node) (pre : symbol_table) (sc : scope) st' :
  set_arguments params (pre ++ [sc]) = (inr tt, st') ->
  exists sc' : scope,
    st' = pre ++ [sc'] /\ dom sc ⊆ dom sc' /\
    (forall a, a ∈ parameter_names params -> a ∈ dom sc').
Proof.
  revert sc; induction params as [|p params IH]; intros sc; simpl.
  - intros [= <-]. exists sc. split; [reflexivity|]. split; [reflexivity|].
    intros a Ha. apply elem_of_nil in Ha. destruct Ha.
  - destruct p; try discriminate.
    rewrite (bind_ok _ _ _ _ _ (set_symbol_snoc _ _ _ _)).
    intros Hrest. apply IH in Hrest as (sc' & -> & Hsub & Hall).
    rewrite dom_insert in Hsub.
    exists sc'. split; [reflexivity|]. split; [set_solver|].
    intros a Ha. apply elem_of_cons in Ha as [->|Ha]; [set_solver|].
    apply Hall, Ha.
Qed.

(** The parameters of a function declaration, bound one after the other:
    each is bound with the tag 'variable', and no other name is touched. *)
Lemma set_arguments_exact (params : list node) (pre : symbol_table) :
  forall (sc : scope) st',
    set_arguments params (pre ++ [sc]) = (inr tt, st') ->
    exists sc' : scope,
      st' = pre ++ [sc'] /\
      (forall a, a ∈ parameter_names params ->
         sc' !! a = Some (mkVarSymbol a (tag "variable"))) /\
      (forall y, y ∉ parameter_names params -> sc' !! y = sc !! y).
Proof.
  induction params as [|p params IH]; intros sc st'; simpl.
  - intros [= <-]. exists sc. split; [reflexivity|]. split; [|reflexivity].
    intros a Ha. apply elem_of_nil in Ha. destruct Ha.
  - destruct p; try discriminate.
    rewrite (bind_ok _ _ _ _ _ (set_symbol_snoc _ _ _ _)).
    intros Hrest. apply IH in Hrest as (sc' & -> & Hvars & Hframe).
    exists sc'. split; [reflexivity|]. split.
    + intros a Ha. apply elem_of_cons in Ha as [->|Ha]; [|apply Hvars, Ha].
      destruct (decide (arg_name ∈ parameter_names params)) as [Hin|Hout];
        [apply Hvars, Hin|].
      rewrite (Hframe _ Hout). apply lookup_insert_eq.
    + intros y Hy. apply not_elem_of_cons in Hy as [Hne Hy].
      rewrite (Hframe y Hy). apply lookup_insert_ne. congruence.
Qed.

(** C4 (amended): handling a function declaration pushes no scope.  It
    binds the name of the function with the tag 'function' and then each
    parameter of [node.args.args] with the tag 'variable' in the innermost
    scope itself, touching no other name, and the rest of the walk starts
    from that table.  After the walker finishes a function-declaration node
    the table has the scopes it had, those below the innermost one are
    unchanged, and the innermost scope binds the function, every parameter,
    and every name it bound before. *)
Theorem visit_FunctionDef_binds_in_current_scope (b : list string) (name : string)
    (posonlyargs params : list node) (vararg : option node) (kwonlyargs : list node)
    (kw_defaults : list (option node)) (kwarg : option node) (defaults : list node)
    (body decorator_list : list node) (returns : option node)
    (st st' : symbol_table) :
  visit b
    (FunctionDef name
       (arguments posonlyargs params vararg kwonlyargs kw_defaults kwarg defaults)
       body decorator_list returns) st
  = (inr tt, st') ->
  exists (pre : symbol_table) (sc sc_bound sc' : scope),
    st = pre ++ [sc] /\ st' = pre ++ [sc'] /\
    (name ∉ parameter_names params ->
     sc_bound !! name = Some (mkVarSymbol name (tag "function"))) /\
    (forall a, a ∈ parameter_names params ->
       sc_bound !! a = Some (mkVarSymbol a (tag "variable"))) /\
    (forall y, y <> name -> y ∉ parameter_names params -> sc_bound !! y = sc !! y) /\
    generic_visit (visit b)
      (FunctionDef name
         (arguments posonlyargs params vararg kwonlyargs kw_defaults kwarg defaults)
         body decorator_list returns) (pre ++ [sc_bound])
    = (inr tt, pre ++ [sc']) /\
    dom sc_bound ⊆ dom sc' /\
    dom sc ⊆ dom sc' /\
    name ∈ dom sc' /\
    (forall a, a ∈ parameter_names params -> a ∈ dom sc').
Proof.
  intros Hvisit.
  destruct (table_cases st) as [->|(pre & sc & ->)]; [discriminate Hvisit|].
  change (visit_FunctionDef (visit b)
            (FunctionDef name
               (arguments posonlyargs params vararg kwonlyargs kw_defaults
                  kwarg defaults) body decorator_list returns) (pre ++ [sc])
          = (inr tt, st')) in Hvisit.
  unfold visit_FunctionDef in Hvisit.
  rewrite (bind_ok _ _ _ _ _ (set_symbol_snoc _ _ _ _)) in Hvisit.
  apply bind_inv_ok in Hvisit as ([] & st1 & Hparams & Hgeneric).
  destruct (set_arguments_exact _ _ _ _ Hparams) as (sc1 & -> & Hvars & Hframe).
  apply set_arguments_binds in Hparams as (sc1' & Heq1 & Hsub1 & Hall).
  apply app_inj_tail in Heq1 as [_ <-].
  pose proof (extends_generic_visit b
                (FunctionDef name
                   (arguments posonlyargs params vararg kwonlyargs kw_defaults
                      kwarg defaults) body decorator_list returns)
                (pre ++ [sc1])) as Hle.
  rewrite Hgeneric in Hle. simpl in Hle.
  inversion Hle as [Hnil|pre0 sc0 sc' Hsub Heq Heq'].
  { destruct pre; discriminate. }
  apply app_inj_tail in Heq as [-> ->]. subst st'.
  rewrite dom_insert in Hsub1.
  exists pre, sc, sc1, sc'. split; [reflexivity|]. split; [reflexivity|].
  split; [|split; [|split; [|split; [|split; [|split; [|split]]]]]].
  - intros Hname. rewrite (Hframe _ Hname). apply lookup_insert_eq.
  - exact Hvars.
  - intros y Hne Hy. rewrite (Hframe _ Hy). apply lookup_insert_ne. congruence.
  - exact Hgeneric.
  - exact Hsub.
  - set_solver.
  - set_solver.
  - intros a Ha. apply Hsub, Hall, Ha.
Qed.

Lemma visit_FunctionDef_binds_in_current_scope_witness :
  exists (pre : symbol_table) (sc sc_bound sc' : scope),
    initial_table = pre ++ [sc] /\
    [ <["a" := mkVarSymbol "a" (tag "variable")]>
        (<["f" := mkVarSymbol "f" (tag "function")]> ∅) ] = pre ++ [sc'] /\
    ("f" ∉ parameter_names [arg "a" None] ->
     sc_bound !! "f" = Some (mkVarSymbol "f" (tag "function"))) /\
    (forall a, a ∈ parameter_names [arg "a" None] ->
       sc_bound !! a = Some (mkVarSymbol a (tag "variable"))) /\
    (forall y, y <> "f" -> y ∉ parameter_names [arg "a" None] -> sc_bound !! y = sc !! y) /\
    generic_visit (visit dir_builtins)
      (FunctionDef "f" (arguments [] [arg "a" None] None [] [] None []) [Pass] [] None)
      (pre ++ [sc_bound])
    = (inr tt, pre ++ [sc']) /\
    dom sc_bound ⊆ dom sc' /\
    dom sc ⊆ dom sc' /\
    "f" ∈ dom sc' /\
    (forall a, a ∈ parameter_names [arg "a" None] -> a ∈ dom sc').
Proof.
  apply (visit_FunctionDef_binds_in_current_scope dir_builtins "f"
           [] [arg "a" None] None [] [] None [] [Pass] [] None).
  reflexivity.
Defined.

(** ** Name resolution (C3) *)






(** ** Undefined names (C2) *)

(** C2, as stated, fails.  [x.foo()] and [print(end=x)] use the name [x],
    which is declared nowhere, and the analysis of each succeeds: the callee
    expression and the keyword arguments of a call are not walked.  And in
    ["a" - 1] followed by [x], in [y = len(x)] and in [x.b = x], the failure
    is the one met first, a type mismatch, an unknown node and an
    unsupported target, not an undefined name. *)
Lemma undefined_name_in_callee_passes :
  in_any_scope "x" initial_table = false /\
  analyze_semantics dir_builtins
    (Module [ Expr (Call (Attribute (Name "x") "foo") [] []) ])
  = Aprobado /\
  analyze_semantics dir_builtins
    (Module [ Expr (Call (Name "print") [] [keyword (Some "end") (Name "x")]) ])
  = Aprobado /\
  analyze_semantics dir_builtins
    (Module [ Expr (BinOp (Str "a") Sub (Num (PyInt 1))); Expr (Name "x") ])
  = Fallo (Coincidencia_incorrecta str int) /\
  analyze_semantics dir_builtins
    (Module [ Assign [Name "y"] (Call (Name "len") [Name "x"] []) ])
  = Fallo (TypeError (Call (Name "len") [Name "x"] [])) /\
  analyze_semantics dir_builtins
    (Module [ Assign [Attribute (Name "x") "b"] (Name "x") ])
  = Fallo Objetivo_no_soportado.
Proof. repeat split; vm_compute; reflexivity. Qed.

Lemma in_any_scope_one x (sc : scope) :
  in_any_scope x [sc] = false -> sc !! x = None.
Proof.
  unfold in_any_scope; simpl. rewrite orb_false_r.
  intros H. apply bool_decide_eq_false_1 in H.
  destruct (sc !! x) eqn:E; [|reflexivity].
  exfalso. apply H. eexists. reflexivity.
Qed.

#[global] Instance eqm_equivalence {A} : Equivalence (@eqm A).
Proof.
  split.
  - intros m st. reflexivity.
  - intros m m' H st. symmetry. apply H.
  - intros m1 m2 m3 H12 H23 st. rewrite H12. apply H23.
Qed.

#[global] Instance bind_proper {A B} :
  Proper (eqm ==> pointwise_relation A eqm ==> eqm) (@bind A B).
Proof.
  intros m m' Hm f f' Hf st. unfold bind. rewrite Hm.
  destruct (m' st) as [[e|a] st1]; [reflexivity|apply Hf].
Qed.

Lemma bind_assoc_eqm {A B C} (m : M A) (f : A -> M B) (g : B -> M C) :
  eqm (bind (bind m f) g) (bind m (fun a => bind (f a) g)).
Proof. intros st. unfold bind. destruct (m st) as [[e|a] st1]; reflexivity. Qed.

Lemma bind_ret_l_eqm {A B} (a : A) (f : A -> M B) : eqm (bind (ret a) f) (f a).
Proof. intros st. reflexivity. Qed.

Lemma bind_ret_r_eqm (m : M unit) : eqm (bind m (fun _ => ret tt)) m.
Proof. intros st. unfold bind. destruct (m st) as [[e|[]] st1]; reflexivity. Qed.

Lemma visit_each_app_eqm v (l1 l2 : list node) :
  eqm (visit_each v (l1 ++ l2)) (bind (visit_each v l1) (fun _ => visit_each v l2)).
Proof. intros st. apply visit_each_app. Qed.

Lemma visit_field_eqm v (o : option node) :
  eqm (visit_field v o) (visit_each v (option_list o)).
Proof.
  destruct o; simpl; [|reflexivity]. symmetry. apply bind_ret_r_eqm.
Qed.

Lemma visit_each_field_eqm v (l : list (option node)) :
  eqm (visit_each_field v l) (visit_each v (omap id l)).
Proof.
  induction l as [|o l IH]; intros st; simpl; [reflexivity|].
  destruct o as [x|]; simpl.
  - unfold bind. destruct (v x st) as [[e|[]] st1]; [reflexivity|apply IH].
  - apply IH.
Qed.

Ltac walk_normal :=
  repeat first
    [ setoid_rewrite bind_assoc_eqm
    | setoid_rewrite visit_each_app_eqm
    | setoid_rewrite bind_ret_l_eqm
    | setoid_rewrite bind_ret_r_eqm
    | setoid_rewrite visit_field_eqm
    | setoid_rewrite visit_each_field_eqm ].

(** The visit of a node that is neither a name nor an assignment: what it
    does first, the walk of its children in order, what it does last. *)
Lemma visit_as_walk b (n : node) :
  is_Name n = false ->
  match n with Assign _ _ => False | _ => True end ->
  eqm (visit b n)
      (bind (prelude b n)
         (fun _ => bind (visit_each (visit b) (walked_children n)) (fun _ => postlude n))).
Proof.
  intros Hname Hassign.
  destruct n; try discriminate Hname; try contradiction Hassign;
    cbn [visit generic_visit visit_FunctionDef visit_ClassDef visit_Call visit_BinOp
         prelude walked_children postlude visit_each];
    walk_normal; reflexivity.
Qed.

Lemma extends_prelude b (n : node) : extends (prelude b n).
Proof.
  destruct n; simpl; repeat extends_step.
  - destruct n; repeat extends_step.
  - destruct n; repeat extends_step.
    destruct (bool_decide _); repeat extends_step.
Qed.

Lemma extends_visit_all b (l : list node) : extends (visit_each (visit b) l).
Proof.
  apply extends_visit_each, Forall_forall. intros x _. apply extends_visit.
Qed.

Lemma nonempty_after {A} (m : M A) st r st' :
  extends m -> m st = (r, st') -> st <> [] -> st' <> [].
Proof.
  intros Hext Hm Hne. specialize (Hext st). rewrite Hm in Hext. simpl in Hext.
  destruct Hext as [|pre sc sc' _]; [exact Hne|].
  intros Heq. destruct pre; discriminate Heq.
Qed.

Lemma in_any_scope_last x (st : symbol_table) (sc : scope) :
  in_any_scope x st = false -> last st = Some sc -> sc !! x = None.
Proof.
  intros Hx Hlast.
  destruct (table_cases st) as [->|(pre & sc0 & ->)]; [discriminate Hlast|].
  rewrite last_snoc in Hlast. injection Hlast as ->.
  unfold in_any_scope in Hx. rewrite existsb_app in Hx.
  apply orb_false_iff in Hx as [_ Hx]. simpl in Hx. rewrite orb_false_r in Hx.
  apply bool_decide_eq_false_1 in Hx.
  destruct (sc !! x) eqn:E; [|reflexivity].
  exfalso. apply Hx. eexists. reflexivity.
Qed.

Lemma lookup_at_fails (path : list nat) :
  forall (e : node) (st : symbol_table) (sc : scope) x,
    lookup_at path e st = Some x ->
    last st = Some sc -> sc !! x = None ->
    get_value_type e st = inl (Variable_no_definida x).
Proof.
  induction path as [|i path IH]; intros e st sc x Hlook Hlast Hx.
  - destruct e; try discriminate Hlook. injection Hlook as ->.
    simpl. rewrite Hlast, Hx. reflexivity.
  - destruct i as [|[|i]]; destruct e; try discriminate Hlook; simpl in Hlook.
    + simpl. rewrite (IH _ _ _ _ Hlook Hlast Hx). reflexivity.
    + simpl. destruct (get_value_type e1 st) as [e|t]; [discriminate Hlook|].
      rewrite (IH _ _ _ _ Hlook Hlast Hx). reflexivity.
Qed.

Lemma use_at_Assign b path targets value st x st_x :
  use_at b path (Assign targets value) st = Some (x, st_x) ->
  exists y ts, targets = Name y :: ts /\ lookup_at path value st = Some x /\ st_x = st.
Proof.
  destruct targets as [|t ts].
  - destruct path as [|i path]; simpl; [discriminate|].
    rewrite take_nil. simpl. discriminate.
  - destruct t;
      try (destruct path as [|i path]; simpl; [discriminate|];
           rewrite take_nil; simpl; discriminate).
    destruct path as [|i path]; cbn [use_at];
      [ destruct (lookup_at [] value st) as [x0|] eqn:Hlook
      | destruct (lookup_at (i :: path) value st) as [x0|] eqn:Hlook ];
      try discriminate; intros [= <- <-]; exists id, ts; auto.
Qed.

Lemma use_at_child b i path (n : node) st x st_x :
  match n with Assign _ _ => False | _ => True end ->
  use_at b (i :: path) n st = Some (x, st_x) ->
  exists st0 st1 c,
    prelude b n st = (inr tt, st0) /\
    visit_each (visit b) (take i (walked_children n)) st0 = (inr tt, st1) /\
    walked_children n !! i = Some c /\
    use_at b path c st1 = Some (x, st_x).
Proof.
  intros Hassign Huse.
  assert (Hstep :
    match prelude b n st with
    | (inr _, st0) =>
        match visit_each (visit b) (take i (walked_children n)) st0 with
        | (inr _, st1) =>
            match walked_children n !! i with
            | Some c => use_at b path c st1
            | None => None
            end
        | (inl _, _) => None
        end
    | (inl _, _) => None
    end = Some (x, st_x)).
  { destruct n; try contradiction Hassign; exact Huse. }
  clear Huse.
  destruct (prelude b n st) as [[e|[]] st0] eqn:Hpre; [discriminate Hstep|].
  destruct (visit_each (visit b) (take i (walked_children n)) st0) as [[e|[]] st1]
    eqn:Hbefore; [discriminate Hstep|].
  destruct (walked_children n !! i) as [c|] eqn:Hc; [|discriminate Hstep].
  exists st0, st1, c. repeat split; try reflexivity; assumption.
Qed.

Lemma use_at_fails b (path : list nat) :
  forall (n : node) (st : symbol_table) x st_x,
    use_at b path n st = Some (x, st_x) ->
    st <> [] ->
    in_any_scope x st_x = false ->
    visit b n st = (inl (Variable_no_definida x), st_x).
Proof.
  induction path as [|i path IH]; intros n st x st_x Huse Hne Hx.
  - destruct n; try discriminate Huse.
    + apply use_at_Assign in Huse as (y & ts & -> & Hlook & ->).
      destruct (table_cases st) as [->|(pre & sc & ->)]; [contradiction|].
      rewrite visit_Assign_eq, assign_targets_Name.
      rewrite (lookup_at_fails _ _ _ sc _ Hlook (last_snoc _ _)); [reflexivity|].
      apply (in_any_scope_last _ _ _ Hx), last_snoc.
    + injection Huse as <- <-. rewrite visit_Name_eq, Hx. reflexivity.
  - destruct (is_Name n) eqn:Hname.
    { destruct n; try discriminate Hname.
      cbn [use_at prelude walked_children] in Huse.
      rewrite take_nil in Huse. simpl in Huse. discriminate Huse. }
    assert (Hcases : (exists targets value, n = Assign targets value)
                     \/ match n with Assign _ _ => False | _ => True end).
    { destruct n; try (right; exact I). left. eauto. }
    destruct Hcases as [(targets & value & ->)|Hassign].
    + apply use_at_Assign in Huse as (y & ts & -> & Hlook & ->).
      destruct (table_cases st) as [->|(pre & sc & ->)]; [contradiction|].
      rewrite visit_Assign_eq, assign_targets_Name.
      rewrite (lookup_at_fails _ _ _ sc _ Hlook (last_snoc _ _)); [reflexivity|].
      apply (in_any_scope_last _ _ _ Hx), last_snoc.
    + apply use_at_child in Huse as (st0 & st1 & c & Hpre & Hbefore & Hc & Huse);
        [|exact Hassign].
      assert (Hne1 : st1 <> []).
      { apply (nonempty_after _ _ _ _ (extends_visit_all b _) Hbefore).
        apply (nonempty_after _ _ _ _ (extends_prelude b n) Hpre), Hne. }
      pose proof (IH c st1 x st_x Huse Hne1 Hx) as Hfail.
      rewrite (visit_as_walk b n Hname Hassign st).
      rewrite (bind_ok _ _ _ _ _ Hpre).
      rewrite <- (take_drop_middle _ _ _ Hc).
      apply bind_raises.
      rewrite visit_each_app, (bind_ok _ _ _ _ _ Hbefore).
      cbn [visit_each]. apply bind_raises, Hfail.
Qed.

(** C2 (amended): when the walk of a program arrives at a use of a name
    that no scope of the table binds, everything walked before it having
    passed, the analyzer returns the failure verdict with the undefined-name
    error naming that identifier.  The uses the walk arrives at are the
    name nodes it visits, at any depth (statements of function and class
    bodies, operands, arguments of calls, returned values, attribute
    values, decorators, bases, annotations, default values), and the names
    that type inference looks up in the right-hand side of an assignment
    whose first target is a plain name.  The callee of a call and its
    keyword arguments are never walked: the outcome of a call does not
    depend on its keywords, nor on a callee that is not a plain name. *)
Theorem undefined_name_is_reported (b : list string) (path : list nat) (n : node)
    (st st_x : symbol_table) (x : string) :
  use_at b path n st = Some (x, st_x) ->
  st <> [] ->
  in_any_scope x st_x = false ->
  visit b n st = (inl (Variable_no_definida x), st_x) /\
  (st = initial_table -> analyze_semantics b n = Fallo (Variable_no_definida x)) /\
  (forall func func' args kws kws' st0,
     is_Name func = false -> is_Name func' = false ->
     visit b (Call func args kws) st0 = visit b (Call func' args kws') st0) /\
  (forall f args kws kws' st0,
     visit b (Call (Name f) args kws) st0 = visit b (Call (Name f) args kws') st0).
Proof.
  intros Huse Hne Hx.
  pose proof (use_at_fails b path n st x st_x Huse Hne Hx) as Hfail.
  split; [exact Hfail|]. split; [|split].
  - intros ->. unfold analyze_semantics. rewrite Hfail. reflexivity.
  - intros func func' args kws kws' st0 Hfunc Hfunc'.
    rewrite !visit_Call_eq. unfold visit_Call.
    destruct func; try discriminate Hfunc;
      destruct func'; try discriminate Hfunc'; reflexivity.
  - intros f args kws kws' st0. rewrite !visit_Call_Name. reflexivity.
Qed.

Lemma undefined_name_is_reported_witness :
  analyze_semantics dir_builtins
    (Module [ Assign [Name "y"] (Num (PyInt 1));
              FunctionDef "f" (arguments [] [arg "a" None] None [] [] None [])
                [ Expr (Call (Name "print") [Name "a"; BinOp (Name "y") Add (Name "x")] []) ]
                [] None ])
  = Fallo (Variable_no_definida "x").
Proof.
  refine (proj1 (proj2
            (undefined_name_is_reported dir_builtins [1; 1; 0; 1; 1] _ initial_table
               _ "x" _ _ _)) eq_refl).
  - vm_compute. reflexivity.
  - discriminate.
  - vm_compute. reflexivity.
Defined.

(** ** Programs that declare before use (C1) *)








Lemma passes_or_reports_ret b (D : gset string) st :
  covers D st -> passes_or_reports b D (ret tt st).
Proof. intros H; exact H. Qed.



















(** ** A discipline under which the analysis passes *)

Lemma scope_models_weaken (D N D' N' : gset string) (sc : scope) :
  D' ⊆ D -> N' ⊆ N -> scope_models D N sc -> scope_models D' N' sc.
Proof.
  intros HD HN [Hd Hn]. split.
  - intros x Hx. apply Hd, HD, Hx.
  - intros x Hx. apply Hn, HN, Hx.
Qed.

Lemma in_any_scope_bound x (sc : scope) :
  is_Some (sc !! x) -> in_any_scope x [sc] = true.
Proof.
  intros H. unfold in_any_scope; simpl.
  rewrite bool_decide_eq_true_2 by exact H. reflexivity.
Qed.

Lemma numeric_expr_type (D N : gset string) (sc : scope) (e : node) :
  scope_models D N sc ->
  numeric_expr N e = true ->
  exists t, get_value_type e [sc] = inr t /\ (t = int \/ t = float).
Proof.
  intros [_ Hn].
  induction e using node_ind'; simpl; try discriminate.
  - intros Hboth. apply andb_true_iff in Hboth as [H1 H2].
    destruct (IHe1 H1) as (t1 & -> & Ht1). destruct (IHe2 H2) as (t2 & -> & Ht2).
    exists float. split; [|right; reflexivity].
    destruct Ht1 as [-> | ->], Ht2 as [-> | ->]; reflexivity.
  - intros _. destruct n; eexists; (split; [reflexivity|]); tauto.
  - intros Hx. apply bool_decide_eq_true_1 in Hx.
    destruct (Hn _ Hx) as (sym & -> & Hty). exists (type sym). split; [reflexivity|exact Hty].
Qed.

Lemma numeric_expr_visit b (D N : gset string) (sc : scope) (e : node) :
  scope_models D N sc ->
  numeric_expr N e = true ->
  visit b e [sc] = (inr tt, [sc]).
Proof.
  intros Hm.
  induction e using node_ind'; simpl numeric_expr; try discriminate.
  - intros Hboth. pose proof Hboth as Hsplit.
    apply andb_true_iff in Hsplit as [H1 H2].
    rewrite visit_BinOp_eq. unfold visit_BinOp.
    rewrite (bind_ok _ _ _ _ _ (IHe1 H1)), (bind_ok _ _ _ _ _ (IHe2 H2)).
    destruct (numeric_expr_type D N sc e1 Hm H1) as (t1 & Ht1 & Hn1).
    destruct (numeric_expr_type D N sc e2 Hm H2) as (t2 & Ht2 & Hn2).
    unfold bind, reading. rewrite Ht1, Ht2.
    destruct Hn1 as [-> | ->], Hn2 as [-> | ->]; reflexivity.
  - reflexivity.
  - intros Hx. apply bool_decide_eq_true_1 in Hx.
    rewrite visit_Name_eq, in_any_scope_bound; [reflexivity|].
    destruct Hm as [_ Hn]. destruct (Hn _ Hx) as (sym & -> & _). eexists; reflexivity.
Qed.

Lemma numeric_expr_mono (N N' : gset string) (e : node) :
  N ⊆ N' -> numeric_expr N e = true -> numeric_expr N' e = true.
Proof.
  intros Hsub.
  induction e using node_ind'; simpl; try discriminate; try reflexivity.
  - intros Hboth. apply andb_true_iff in Hboth as [H1 H2].
    rewrite IHe1, IHe2 by assumption. reflexivity.
  - intros Hx. apply bool_decide_eq_true_1 in Hx.
    apply bool_decide_eq_true_2, Hsub, Hx.
Qed.

Lemma visit_each_all_pass b (P : node -> bool) (args : list node) st :
  Forall (fun a => P a = true -> visit b a st = (inr tt, st)) args ->
  forallb P args = true ->
  visit_each (visit b) args st = (inr tt, st).
Proof.
  induction 1 as [|a args Ha _ IH]; simpl; [reflexivity|].
  intros Hall. apply andb_true_iff in Hall as [H1 H2].
  rewrite (bind_ok _ _ _ _ _ (Ha H1)). apply IH, H2.
Qed.

Lemma visit_each_pass b (P : node -> bool) (l : list node) st :
  (forall x, P x = true -> visit b x st = (inr tt, st)) ->
  forallb P l = true ->
  visit_each (visit b) l st = (inr tt, st).
Proof.
  intros HP. apply visit_each_all_pass, Forall_forall. intros x _. apply HP.
Qed.

Lemma visit_field_pass b (P : node -> bool) (v : option node) st :
  (forall x, P x = true -> visit b x st = (inr tt, st)) ->
  match v with Some x => P x | None => true end = true ->
  visit_field (visit b) v st = (inr tt, st).
Proof. intros HP. destruct v; simpl; [apply HP|reflexivity]. Qed.

Lemma declared_expr_visit b (D N : gset string) (sc : scope) (e : node) :
  scope_models D N sc ->
  declared_expr b D N e = true ->
  visit b e [sc] = (inr tt, [sc]).
Proof.
  intros Hm.
  induction e using node_ind'; cbn [declared_expr]; try discriminate.
  - apply (numeric_expr_visit b D N sc _ Hm).
  - intros Hcall. apply andb_true_iff in Hcall as [Hcall _].
    apply andb_true_iff in Hcall as [Hf Hargs].
    assert (Hwalk : visit_each (visit b) args [sc] = (inr tt, [sc]))
      by (apply (visit_each_all_pass b (declared_expr b D N)); assumption).
    destruct e; try (rewrite visit_Call_other by reflexivity; exact Hwalk).
    rewrite visit_Call_Name, Hf. exact Hwalk.
  - reflexivity.
  - reflexivity.
  - exact IHe.
  - intros Hx. apply bool_decide_eq_true_1 in Hx.
    rewrite visit_Name_eq, in_any_scope_bound; [reflexivity|].
    apply Hm, Hx.
Qed.

Lemma declared_field_visit b (D N : gset string) (sc : scope) (v : option node) :
  scope_models D N sc ->
  declared_field b D N v = true ->
  visit_field (visit b) v [sc] = (inr tt, [sc]).
Proof.
  intros Hm. destruct v; simpl; [|reflexivity].
  apply (declared_expr_visit b D N), Hm.
Qed.

Lemma declared_arg_visit b (D N : gset string) (sc : scope) (p : node) :
  scope_models D N sc ->
  declared_arg b D N p = true ->
  visit b p [sc] = (inr tt, [sc]).
Proof.
  intros Hm. destruct p; simpl declared_arg; try discriminate.
  apply (declared_field_visit b D N sc annotation Hm).
Qed.

Lemma declared_keyword_visit b (D N : gset string) (sc : scope) (k : node) :
  scope_models D N sc ->
  declared_keyword b D N k = true ->
  visit b k [sc] = (inr tt, [sc]).
Proof.
  intros Hm. destruct k; simpl declared_keyword; try discriminate.
  apply (declared_expr_visit b D N sc k Hm).
Qed.

Lemma declared_fields_visit b (D N : gset string) (sc : scope) (l : list (option node)) :
  scope_models D N sc ->
  forallb (declared_field b D N) l = true ->
  visit_each_field (visit b) l [sc] = (inr tt, [sc]).
Proof.
  intros Hm. induction l as [|v l IH]; simpl; [reflexivity|].
  intros Hall. apply andb_true_iff in Hall as [H1 H2].
  rewrite (bind_ok _ _ _ _ _ (declared_field_visit b D N sc v Hm H1)).
  apply IH, H2.
Qed.

Lemma declared_arguments_visit b (D N : gset string) (sc : scope)
    posonlyargs params vararg kwonlyargs kw_defaults kwarg defaults :
  scope_models D N sc ->
  declared_arguments b D N posonlyargs params vararg kwonlyargs kw_defaults
    kwarg defaults = true ->
  visit b (arguments posonlyargs params vararg kwonlyargs kw_defaults kwarg defaults)
    [sc] = (inr tt, [sc]).
Proof.
  intros Hm Hall. unfold declared_arguments in Hall.
  apply andb_true_iff in Hall as [Hall Hdefaults].
  apply andb_true_iff in Hall as [Hall Hkwarg].
  apply andb_true_iff in Hall as [Hall Hkw_defaults].
  apply andb_true_iff in Hall as [Hall Hkwonly].
  apply andb_true_iff in Hall as [Hall Hvararg].
  apply andb_true_iff in Hall as [Hposonly Hparams].
  pose proof (fun x => declared_arg_visit b D N sc x Hm) as Harg.
  pose proof (fun x => declared_expr_visit b D N sc x Hm) as Hexpr.
  cbn [visit generic_visit].
  rewrite (bind_ok _ _ _ _ _ (visit_each_pass b _ posonlyargs [sc] Harg Hposonly)).
  rewrite (bind_ok _ _ _ _ _ (visit_each_pass b _ params [sc] Harg Hparams)).
  rewrite (bind_ok _ _ _ _ _ (visit_field_pass b _ vararg [sc] Harg Hvararg)).
  rewrite (bind_ok _ _ _ _ _ (visit_each_pass b _ kwonlyargs [sc] Harg Hkwonly)).
  rewrite (bind_ok _ _ _ _ _ (declared_fields_visit b D N sc kw_defaults Hm Hkw_defaults)).
  rewrite (bind_ok _ _ _ _ _ (visit_field_pass b _ kwarg [sc] Harg Hkwarg)).
  apply (visit_each_pass b _ defaults [sc] Hexpr Hdefaults).
Qed.

Lemma scope_models_insert_numeric (D N : gset string) (sc : scope) x t :
  scope_models D N sc ->
  t = int \/ t = float ->
  scope_models (D ∪ {[x]}) (N ∪ {[x]}) (<[x := mkVarSymbol x t]> sc).
Proof.
  intros [Hd Hn] Ht. split; intros y Hy.
  - destruct (decide (x = y)) as [->|Hne].
    + rewrite lookup_insert_eq. eexists; reflexivity.
    + rewrite lookup_insert_ne by exact Hne. apply Hd. set_solver.
  - destruct (decide (x = y)) as [->|Hne].
    + rewrite lookup_insert_eq. eexists; split; [reflexivity|exact Ht].
    + rewrite lookup_insert_ne by exact Hne. apply Hn. set_solver.
Qed.

Lemma scope_models_insert_other (D N : gset string) (sc : scope) x sym :
  scope_models D N sc ->
  scope_models (D ∪ {[x]}) (N ∖ {[x]}) (<[x := sym]> sc).
Proof.
  intros [Hd Hn]. split; intros y Hy.
  - destruct (decide (x = y)) as [->|Hne].
    + rewrite lookup_insert_eq. eexists; reflexivity.
    + rewrite lookup_insert_ne by exact Hne. apply Hd. set_solver.
  - assert (Hne : x <> y) by set_solver.
    rewrite lookup_insert_ne by exact Hne. apply Hn. set_solver.
Qed.

Lemma set_symbol_one k t (sc : scope) :
  set_symbol k t [sc] = (inr tt, [<[k := mkVarSymbol k t]> sc]).
Proof. exact (set_symbol_snoc k t [] sc). Qed.

(** Plain-name targets of a numeric right-hand side. *)
Lemma assign_targets_numeric (targets : list node) (value : node) :
  forall (D N : gset string) (sc : scope),
    scope_models D N sc ->
    numeric_expr N value = true ->
    forallb is_Name targets = true ->
    exists sc' : scope,
      assign_targets targets value [sc] = (inr tt, [sc']) /\
      scope_models (D ∪ list_to_set (target_names targets))
                   (N ∪ list_to_set (target_names targets)) sc'.
Proof.
  induction targets as [|t targets IH]; intros D N sc Hm Hv Hts.
  - exists sc. split; [reflexivity|].
    eapply scope_models_weaken; [| |exact Hm]; simpl; set_solver.
  - simpl in Hts. apply andb_true_iff in Hts as [Ht Hts].
    destruct t; try discriminate Ht.
    rewrite assign_targets_Name.
    destruct (numeric_expr_type D N sc value Hm Hv) as (ty & -> & Hty).
    unfold bind. rewrite set_symbol_one.
    destruct (IH (D ∪ {[id]}) (N ∪ {[id]}) (<[id := mkVarSymbol id ty]> sc))
      as (sc' & Heq & Hm').
    + apply scope_models_insert_numeric; assumption.
    + apply (numeric_expr_mono N); [set_solver|exact Hv].
    + exact Hts.
    + exists sc'. split; [exact Heq|].
      eapply scope_models_weaken; [| |exact Hm']; simpl; set_solver.
Qed.

(** Plain-name targets of a right-hand side whose type can be inferred in
    every scope that binds the names of [D]. *)
Lemma assign_targets_declared (targets : list node) (value : node) :
  forall (D N : gset string) (sc : scope),
    scope_models D N sc ->
    (forall sc1 : scope,
       (forall x, x ∈ D -> is_Some (sc1 !! x)) ->
       exists t, get_value_type value [sc1] = inr t) ->
    forallb is_Name targets = true ->
    exists sc' : scope,
      assign_targets targets value [sc] = (inr tt, [sc']) /\
      scope_models (D ∪ list_to_set (target_names targets))
                   (N ∖ list_to_set (target_names targets)) sc'.
Proof.
  induction targets as [|t targets IH]; intros D N sc Hm Hv Hts.
  - exists sc. split; [reflexivity|].
    eapply scope_models_weaken; [| |exact Hm]; simpl; set_solver.
  - simpl in Hts. apply andb_true_iff in Hts as [Ht Hts].
    destruct t; try discriminate Ht.
    rewrite assign_targets_Name.
    destruct (Hv sc (proj1 Hm)) as (ty & ->).
    unfold bind. rewrite set_symbol_one.
    destruct (IH (D ∪ {[id]}) (N ∖ {[id]}) (<[id := mkVarSymbol id ty]> sc))
      as (sc' & Heq & Hm').
    + apply scope_models_insert_other, Hm.
    + intros sc1 Hsc1. apply Hv. intros x Hx. apply Hsc1. set_solver.
    + exact Hts.
    + exists sc'. split; [exact Heq|].
      eapply scope_models_weaken; [| |exact Hm']; simpl; set_solver.
Qed.

Lemma declared_assign_visit b (D N D' N' : gset string) (sc : scope) targets value :
  scope_models D N sc ->
  declared_assign D N targets value = Some (D', N') ->
  exists sc' : scope,
    visit b (Assign targets value) [sc] = (inr tt, [sc']) /\ scope_models D' N' sc'.
Proof.
  intros Hm. unfold declared_assign. rewrite visit_Assign_eq.
  destruct (forallb is_Name targets) eqn:Hts; [|discriminate].
  destruct (numeric_expr N value) eqn:Hnum.
  - intros [= <- <-]. apply assign_targets_numeric; assumption.
  - destruct value; try discriminate.
    + intros [= <- <-]. apply assign_targets_declared; [exact Hm| |exact Hts].
      intros sc1 _. exists str. reflexivity.
    + destruct (bool_decide (id ∈ D)) eqn:Hid; [|discriminate].
      apply bool_decide_eq_true_1 in Hid.
      intros [= <- <-]. apply assign_targets_declared; [exact Hm| |exact Hts].
      intros sc1 Hsc1. destruct (Hsc1 _ Hid) as [sym Hsym].
      exists (type sym). simpl. rewrite Hsym. reflexivity.
Qed.

(** The parameters of a function, bound one after the other. *)
Lemma set_arguments_models b (D0 N0 : gset string) (params : list node) :
  forallb (declared_arg b D0 N0) params = true ->
  forall (D N : gset string) (sc : scope),
    scope_models D N sc ->
    exists sc' : scope,
      set_arguments params [sc] = (inr tt, [sc']) /\
      scope_models (D ∪ list_to_set (parameter_names params))
                   (N ∖ list_to_set (parameter_names params)) sc'.
Proof.
  induction params as [|p params IH]; intros Hps D N sc Hm.
  - exists sc. split; [reflexivity|].
    eapply scope_models_weaken; [| |exact Hm]; simpl; set_solver.
  - simpl in Hps. apply andb_true_iff in Hps as [Hp Hps].
    destruct p; try discriminate Hp. simpl set_arguments.
    rewrite (bind_ok _ _ _ _ _ (set_symbol_one _ _ _)).
    destruct (IH Hps (D ∪ {[arg_name]}) (N ∖ {[arg_name]})
                (<[arg_name := mkVarSymbol arg_name (tag "variable")]> sc))
      as (sc' & Heq & Hm').
    + apply scope_models_insert_other, Hm.
    + exists sc'. split; [exact Heq|].
      eapply scope_models_weaken; [| |exact Hm']; simpl; set_solver.
Qed.

Lemma declared_body_visit b (body : list node) :
  Forall (passes_when_declared b) body ->
  forall (D N D' N' : gset string) (sc : scope),
    scope_models D N sc ->
    declared_body (declared_stmt b) body D N = Some (D', N') ->
    exists sc' : scope,
      visit_each (visit b) body [sc] = (inr tt, [sc']) /\ scope_models D' N' sc'.
Proof.
  induction 1 as [|s body Hs _ IH]; intros D N D' N' sc Hm; simpl declared_body.
  - intros [= <- <-]. exists sc. split; [reflexivity|exact Hm].
  - destruct (declared_stmt b s D N) as [[D1 N1]|] eqn:Hstmt; [|discriminate].
    intros Hbody.
    destruct (Hs D N D1 N1 sc Hm Hstmt) as (sc1 & Hv & Hm1).
    destruct (IH D1 N1 D' N' sc1 Hm1 Hbody) as (sc' & Hrest & Hm').
    exists sc'. split; [|exact Hm'].
    simpl. rewrite (bind_ok _ _ _ _ _ Hv). exact Hrest.
Qed.

Lemma declared_stmt_visit b (s : node) : passes_when_declared b s.
Proof.
  induction s as
    [ body IHbody
    | fname fargs body decs returns IHfargs IHbody IHdecs IHreturns
    | cname bases kws body decs IHbases IHkws IHbody IHdecs
    | value IHvalue
    | targets value IHtargets IHvalue
    | value IHvalue
    |
    | l op r IHl IHr
    | func args kws IHfunc IHargs IHkws
    | n | str_ | value attr IHvalue | id
    | posonlyargs params vararg kwonlyargs kw_defaults kwarg defaults
        IH1 IH2 IH3 IH4 IH5 IH6 IH7
    | a annotation IHannotation
    | a value IHvalue ] using node_ind';
    intros D N D' N' sc Hm; cbn [declared_stmt]; try discriminate.
  - (* FunctionDef *)
    destruct fargs as
      [ | | | | | | | | | | | |
      | posonlyargs params vararg kwonlyargs kw_defaults kwarg defaults | | ];
      try discriminate.
    set (xs := ({[fname]} ∪ list_to_set (parameter_names params) : gset string)).
    destruct (declared_arguments b (D ∪ xs) (N ∖ xs) posonlyargs params vararg
                kwonlyargs kw_defaults kwarg defaults) eqn:Hargs; [|discriminate].
    destruct (declared_body (declared_stmt b) body (D ∪ xs) (N ∖ xs))
      as [[D2 N2]|] eqn:Hbody; [|discriminate].
    destruct (forallb (declared_expr b D2 N2) decs
              && declared_field b D2 N2 returns) eqn:Hrest; [|discriminate].
    intros [= <- <-].
    apply andb_true_iff in Hrest as [Hdecs Hret].
    assert (Hparams : forallb (declared_arg b (D ∪ xs) (N ∖ xs)) params = true).
    { unfold declared_arguments in Hargs.
      do 5 (apply andb_true_iff in Hargs as [Hargs _]).
      apply andb_true_iff in Hargs as [_ Hargs]. exact Hargs. }
    destruct (set_arguments_models b _ _ params Hparams
                (D ∪ {[fname]}) (N ∖ {[fname]})
                (<[fname := mkVarSymbol fname (tag "function")]> sc))
      as (sc1 & Hset & Hm1); [apply scope_models_insert_other, Hm|].
    assert (Hm1' : scope_models (D ∪ xs) (N ∖ xs) sc1).
    { eapply scope_models_weaken; [| |exact Hm1]; unfold xs; set_solver. }
    destruct (declared_body_visit b body IHbody _ _ _ _ sc1 Hm1' Hbody)
      as (sc2 & Hwalk & Hm2).
    exists sc2. split; [|exact Hm2].
    cbn [visit]. unfold visit_FunctionDef.
    rewrite (bind_ok _ _ _ _ _ (set_symbol_one _ _ _)).
    rewrite (bind_ok _ _ _ _ _ Hset).
    cbn [generic_visit].
    rewrite (bind_ok _ _ _ _ _
               (declared_arguments_visit b _ _ sc1 _ _ _ _ _ _ _ Hm1' Hargs)).
    rewrite (bind_ok _ _ _ _ _ Hwalk).
    rewrite (bind_ok _ _ _ _ _
               (visit_each_pass b _ decs [sc2]
                  (fun x => declared_expr_visit b D2 N2 sc2 x Hm2) Hdecs)).
    apply (declared_field_visit b D2 N2 sc2 returns Hm2 Hret).
  - (* ClassDef *)
    destruct (forallb (declared_expr b (D ∪ {[cname]}) (N ∖ {[cname]})) bases
              && forallb (declared_keyword b (D ∪ {[cname]}) (N ∖ {[cname]})) kws)
      eqn:Hhead; [|discriminate].
    destruct (declared_body (declared_stmt b) body (D ∪ {[cname]}) (N ∖ {[cname]}))
      as [[D2 N2]|] eqn:Hbody; [|discriminate].
    destruct (forallb (declared_expr b D2 N2) decs) eqn:Hdecs; [|discriminate].
    intros [= <- <-].
    apply andb_true_iff in Hhead as [Hbases Hkws].
    pose proof (scope_models_insert_other D N sc cname
                  (mkVarSymbol cname (tag "class")) Hm) as Hm1.
    destruct (declared_body_visit b body IHbody _ _ _ _ _ Hm1 Hbody)
      as (sc2 & Hwalk & Hm2).
    exists sc2. split; [|exact Hm2].
    cbn [visit]. unfold visit_ClassDef.
    rewrite (bind_ok _ _ _ _ _ (set_symbol_one _ _ _)).
    cbn [generic_visit].
    rewrite (bind_ok _ _ _ _ _
               (visit_each_pass b _ bases _
                  (fun x => declared_expr_visit b _ _ _ x Hm1) Hbases)).
    rewrite (bind_ok _ _ _ _ _
               (visit_each_pass b _ kws _
                  (fun x => declared_keyword_visit b _ _ _ x Hm1) Hkws)).
    rewrite (bind_ok _ _ _ _ _ Hwalk).
    apply (visit_each_pass b _ decs [sc2]
             (fun x => declared_expr_visit b D2 N2 sc2 x Hm2) Hdecs).
  - (* Return *)
    destruct (declared_field b D N value) eqn:Hv; [|discriminate].
    intros [= <- <-]. exists sc. split; [|exact Hm].
    apply (declared_field_visit b D N sc value Hm Hv).
  - (* Assign *)
    apply declared_assign_visit, Hm.
  - (* Expr *)
    destruct (declared_expr b D N value) eqn:He; [|discriminate].
    intros [= <- <-]. exists sc. split; [|exact Hm].
    rewrite visit_Expr_eq. apply (declared_expr_visit b D N sc value Hm He).
  - (* Pass *)
    intros [= <- <-]. exists sc. split; [reflexivity|exact Hm].
Qed.

(** X16: for every module made of function and class declarations,
    returns, [pass], assignments to plain names and expression statements,
    in which every name is bound earlier in the walk than it is used (by an
    assignment, or as the name of a function, of a class or of a parameter
    of [node.args.args]), every callee that is a plain name is a built-in,
    the operands of binary operations are numeric (numbers, binary
    operations, and names whose last binding is an assignment of such a
    value), and the right-hand side of every assignment is a numeric
    expression, a string or a bound name, running the analyzer over the
    tree returns the success verdict. *)
Theorem numeric_discipline_passes (b : list string) (prog : node) :
  numeric_discipline b prog = true ->
  analyze_semantics b prog = Aprobado.
Proof.
  destruct prog; try discriminate. simpl numeric_discipline.
  destruct (declared_body (declared_stmt b) body ∅ ∅) as [[D N]|] eqn:Hbody;
    [intros _|discriminate].
  assert (Hempty : scope_models ∅ ∅ (∅ : scope)).
  { split; intros x Hx; set_solver. }
  destruct (declared_body_visit b body
              (proj2 (Forall_forall _ _) (fun s _ => declared_stmt_visit b s))
              ∅ ∅ D N ∅ Hempty Hbody) as (sc' & Hwalk & _).
  unfold analyze_semantics. rewrite visit_Module_eq.
  unfold initial_table. rewrite Hwalk. reflexivity.
Qed.

Lemma numeric_discipline_passes_witness :
  analyze_semantics dir_builtins
    (Module [ Assign [Name "x"] (Num (PyInt 1));
              FunctionDef "f" (arguments [] [arg "a" None] None [] [] None [])
                [ Assign [Name "y"] (BinOp (Name "x") Add (Num (PyFloat 25 (-1))));
                  Return (Some (Name "a")) ] [] None;
              ClassDef "C" [] [] [ Assign [Name "s"] (Str "hola") ] [];
              Expr (Call (Name "print") [Name "s"; BinOp (Name "y") Mult (Name "x")] []);
              Expr (Call (Attribute (Name "s") "upper") [] []);
              Assign [Name "z"; Name "t"] (BinOp (Name "y") Sub (Name "x")) ])
  = Aprobado.
Proof.
  apply numeric_discipline_passes.
  vm_compute. reflexivity.
Defined.

(** * Further properties of the analyzer *)

(** ** Type inference *)

(** X1: the type [get_value_type] infers, or the error it raises, depends
    on the innermost scope only: the scopes below it are never read. *)
Theorem get_value_type_reads_innermost (n : node) (pre pre' : symbol_table)
    (sc : scope) :
  get_value_type n (pre ++ [sc]) = get_value_type n (pre' ++ [sc]).
Proof.
  induction n using node_ind'; try reflexivity.
  - simpl. rewrite IHn1, IHn2. reflexivity.
  - simpl. rewrite !last_snoc. reflexivity.
Qed.

(** X2: an assignment whose right-hand side is of a class that
    [get_value_type] does not know (a call, an attribute, ...) fails on its
    first plain-name target with the [TypeError] naming that node, and
    binds nothing: [x = len(s)] is rejected although [len] is a built-in. *)
Theorem visit_Assign_unknown_value (b : list string) (x : string)
    (targets : list node) (value : node) (st : symbol_table) :
  inferable_class value = false ->
  visit b (Assign (Name x :: targets) value) st = (inl (TypeError value), st).
Proof.
  intros Hclass. rewrite visit_Assign_eq, assign_targets_Name.
  destruct value; try discriminate Hclass; reflexivity.
Qed.

Lemma visit_Assign_unknown_value_witness :
  visit dir_builtins
    (Assign (Name "x" :: []) (Call (Name "len") [Str "s"] [])) initial_table
  = (inl (TypeError (Call (Name "len") [Str "s"] [])), initial_table).
Proof.
  apply (visit_Assign_unknown_value dir_builtins "x" []
           (Call (Name "len") [Str "s"] []) initial_table).
  reflexivity.
Defined.

(** X3: the rule of [get_value_type] and the check of [visit_BinOp]
    disagree on operands of one same type.  An assignment [x = l op r]
    whose operands have the same inferred type, whatever it is, succeeds
    and binds [x] to [float]; the same operation as an expression
    statement is rejected with the type-mismatch error when that type is a
    tag ('function', 'variable', 'class'). *)
Theorem inference_and_check_disagree (b : list string) (x : string) (l r : node)
    (op : operator) (pre : symbol_table) (sc : scope) (t : pytype) :
  get_value_type l (pre ++ [sc]) = inr t ->
  get_value_type r (pre ++ [sc]) = inr t ->
  visit b (Assign [Name x] (BinOp l op r)) (pre ++ [sc])
  = (inr tt, pre ++ [<[x := mkVarSymbol x float]> sc]) /\
  (forall s,
     t = tag s ->
     visit b l (pre ++ [sc]) = (inr tt, pre ++ [sc]) ->
     visit b r (pre ++ [sc]) = (inr tt, pre ++ [sc]) ->
     visit b (Expr (BinOp l op r)) (pre ++ [sc])
     = (inl (Coincidencia_incorrecta t t), pre ++ [sc])).
Proof.
  intros Hl Hr. split.
  - rewrite visit_Assign_eq, assign_targets_Name. simpl get_value_type.
    rewrite Hl, Hr, bool_decide_eq_true_2 by reflexivity. simpl orb.
    unfold bind. rewrite set_symbol_snoc. reflexivity.
  - intros s -> Hvl Hvr.
    rewrite visit_Expr_eq, visit_BinOp_eq. unfold visit_BinOp.
    rewrite (bind_ok _ _ _ _ _ Hvl), (bind_ok _ _ _ _ _ Hvr).
    unfold bind, reading. rewrite Hl, Hr.
    rewrite bool_decide_eq_false_2; [reflexivity|].
    rewrite BinOp_pairs_spec.
    intros [[[H|H] _]|[H _]]; discriminate H.
Qed.

Lemma inference_and_check_disagree_witness :
  let sc : scope := {[ "f" := mkVarSymbol "f" (tag "function") ]} in
  visit dir_builtins (Assign [Name "x"] (BinOp (Name "f") Add (Name "f"))) ([] ++ [sc])
  = (inr tt, [] ++ [<["x" := mkVarSymbol "x" float]> sc]) /\
  visit dir_builtins (Expr (BinOp (Name "f") Add (Name "f"))) ([] ++ [sc])
  = (inl (Coincidencia_incorrecta (tag "function") (tag "function")), [] ++ [sc]).
Proof.
  intros sc.
  destruct (inference_and_check_disagree dir_builtins "x" (Name "f") (Name "f") Add
              [] sc (tag "function") eq_refl eq_refl) as [Hassign Hexpr].
  split; [exact Hassign|].
  apply (Hexpr "function"); reflexivity.
Defined.

(** ** Names *)

(** X4: [visit_Name] accepts a name exactly when some scope of the table,
    the innermost or any other, binds it; otherwise it raises the
    undefined-name error.  The table is left as it was in both cases. *)
Theorem visit_Name_any_scope (b : list string) (x : string) (st : symbol_table) :
  ((exists sc : scope, sc ∈ st /\ is_Some (sc !! x)) ->
   visit b (Name x) st = (inr tt, st)) /\
  (~ (exists sc : scope, sc ∈ st /\ is_Some (sc !! x)) ->
   visit b (Name x) st = (inl (Variable_no_definida x), st)).
Proof.
  rewrite visit_Name_eq. unfold in_any_scope.
  destruct (existsb _ st) eqn:Hex.
  - split; [reflexivity|]. intros Hno. exfalso. apply Hno.
    apply existsb_exists in Hex as (sc & Hin & Hsc).
    apply bool_decide_eq_true_1 in Hsc.
    exists sc. split; [apply list_elem_of_In, Hin|exact Hsc].
  - split; [|reflexivity]. intros (sc & Hin & Hsc).
    assert (Htrue : existsb (fun sc0 : scope => bool_decide (is_Some (sc0 !! x))) st = true).
    { apply existsb_exists. exists sc. split; [apply list_elem_of_In, Hin|].
      apply bool_decide_eq_true_2, Hsc. }
    rewrite Htrue in Hex. discriminate Hex.
Qed.

Lemma visit_Name_any_scope_witness :
  visit dir_builtins (Name "x") [ {[ "x" := mkVarSymbol "x" int ]}; ∅ ]
  = (inr tt, [ {[ "x" := mkVarSymbol "x" int ]}; ∅ ]).
Proof.
  apply (proj1 (visit_Name_any_scope dir_builtins "x"
                  [ {[ "x" := mkVarSymbol "x" int ]}; ∅ ])).
  exists {[ "x" := mkVarSymbol "x" int ]}. split.
  - apply list_elem_of_here.
  - eexists. reflexivity.
Defined.

(** ** Assignments *)

Lemma assign_targets_frame (targets : list node) (value : node) (pre : symbol_table) :
  forall (sc : scope) st',
    assign_targets targets value (pre ++ [sc]) = (inr tt, st') ->
    exists sc' : scope,
      st' = pre ++ [sc'] /\
      forallb is_Name targets = true /\
      dom sc' = dom sc ∪ list_to_set (target_names targets) /\
      (forall y, y ∉ target_names targets -> sc' !! y = sc !! y).
Proof.
  induction targets as [|t targets IH]; intros sc st'.
  - intros [= <-]. exists sc. split; [reflexivity|]. split; [reflexivity|].
    split; [simpl; set_solver|]. reflexivity.
  - destruct (is_Name t) eqn:Ht.
    + destruct t; try discriminate Ht.
      rewrite assign_targets_Name.
      destruct (get_value_type value (pre ++ [sc])) as [e|ty]; [discriminate|].
      unfold bind. rewrite set_symbol_snoc. intros Hrest.
      apply IH in Hrest as (sc' & -> & Hnames & Hdom & Hframe).
      exists sc'. split; [reflexivity|]. split; [exact Hnames|]. split.
      * rewrite Hdom, dom_insert_L. simpl. set_solver.
      * intros y Hy. simpl in Hy. apply not_elem_of_cons in Hy as [Hne Hy].
        rewrite (Hframe y Hy). apply lookup_insert_ne. congruence.
    + rewrite assign_targets_not_Name by exact Ht. discriminate.
Qed.

(** X5: an assignment that succeeds changes the innermost scope at its
    targets only.  All its targets are plain names, the scopes below the
    innermost one are unchanged, the innermost scope binds what it bound
    and the targets, and every other name keeps its symbol. *)
Theorem visit_Assign_frame (b : list string) (targets : list node) (value : node)
    (pre : symbol_table) (sc : scope) (st' : symbol_table) :
  visit b (Assign targets value) (pre ++ [sc]) = (inr tt, st') ->
  exists sc' : scope,
    st' = pre ++ [sc'] /\
    forallb is_Name targets = true /\
    dom sc' = dom sc ∪ list_to_set (target_names targets) /\
    (forall y, y ∉ target_names targets -> sc' !! y = sc !! y).
Proof.
  rewrite visit_Assign_eq. apply assign_targets_frame.
Qed.

Lemma visit_Assign_frame_witness :
  exists sc' : scope,
    [ <["b" := mkVarSymbol "b" int]> (<["a" := mkVarSymbol "a" int]> ∅) ]
    = [] ++ [sc'] /\
    forallb is_Name [Name "a"; Name "b"] = true /\
    dom sc' = dom (∅ : scope) ∪ list_to_set (target_names [Name "a"; Name "b"]) /\
    (forall y, y ∉ target_names [Name "a"; Name "b"] -> sc' !! y = (∅ : scope) !! y).
Proof.
  apply (visit_Assign_frame dir_builtins [Name "a"; Name "b"] (Num (PyInt 1)) [] ∅).
  reflexivity.
Defined.

(** X6: declaring then resolving.  After an assignment to a single plain
    name succeeds, the type of its right-hand side was inferred, and in the
    table it leaves the name resolves to that type and passes as a name
    use. *)
Theorem assigned_name_resolves (b : list string) (x : string) (value : node)
    (st st' : symbol_table) :
  visit b (Assign [Name x] value) st = (inr tt, st') ->
  exists t,
    get_value_type value st = inr t /\
    get_value_type (Name x) st' = inr t /\
    visit b (Name x) st' = (inr tt, st').
Proof.
  rewrite visit_Assign_eq, assign_targets_Name.
  destruct (get_value_type value st) as [e|t] eqn:Hvalue; [discriminate|].
  destruct (table_cases st) as [->|(pre & sc & ->)]; [discriminate|].
  unfold bind. rewrite set_symbol_snoc. intros Hret.
  assert (st' = pre ++ [<[x := mkVarSymbol x t]> sc]) as ->
    by (symmetry; exact (f_equal snd Hret)).
  exists t. split; [reflexivity|]. split.
  - rewrite get_value_type_Name_snoc, lookup_insert_eq. reflexivity.
  - rewrite visit_Name_eq, in_any_scope_snoc; [reflexivity|].
    rewrite lookup_insert_eq. eexists. reflexivity.
Qed.

Lemma assigned_name_resolves_witness :
  exists t,
    get_value_type (Str "hola") initial_table = inr t /\
    get_value_type (Name "s") [ <["s" := mkVarSymbol "s" str]> ∅ ] = inr t /\
    visit dir_builtins (Name "s") [ <["s" := mkVarSymbol "s" str]> ∅ ]
    = (inr tt, [ <["s" := mkVarSymbol "s" str]> ∅ ]).
Proof.
  apply (assigned_name_resolves dir_builtins "s" (Str "hola") initial_table).
  reflexivity.
Defined.

(** X7: on every table that a walk from the table of a new analyzer
    reaches, the two lookups of the analyzer agree: a name passes as a use
    ([visit_Name], any scope) exactly when its type can be resolved
    ([get_value_type], innermost scope). *)
Theorem lookups_agree_on_reached_tables (b : list string) (body : list node)
    (r : exn + unit) (st : symbol_table) (x : string) :
  visit_each (visit b) body initial_table = (r, st) ->
  (visit b (Name x) st = (inr tt, st) <->
   exists t, get_value_type (Name x) st = inr t).
Proof.
  intros Hwalk. destruct (walk_keeps_one_scope _ _ _ _ Hwalk) as [sc ->].
  rewrite visit_Name_eq. unfold in_any_scope. simpl. rewrite orb_false_r.
  destruct (sc !! x) as [sym|] eqn:Hx.
  - rewrite bool_decide_eq_true_2 by (eexists; reflexivity).
    split; [intros _; exists (type sym)|intros _]; reflexivity.
  - rewrite bool_decide_eq_false_2 by (intros [? H]; discriminate H).
    split; [discriminate|intros [t Ht]; discriminate Ht].
Qed.

Lemma lookups_agree_on_reached_tables_witness :
  visit dir_builtins (Name "x") [ <["x" := mkVarSymbol "x" int]> ∅ ]
  = (inr tt, [ <["x" := mkVarSymbol "x" int]> ∅ ]) <->
  exists t, get_value_type (Name "x") [ <["x" := mkVarSymbol "x" int]> ∅ ] = inr t.
Proof.
  apply (lookups_agree_on_reached_tables dir_builtins
           [ Assign [Name "x"] (Num (PyInt 1)) ] (inr tt)).
  reflexivity.
Defined.

(** ** The verdict of a program *)

(** X8: the analysis stops at the first failure.  When a program fails,
    the program with any statements appended fails with the same
    exception; and when a program passes, so does each program made of
    its leading statements. *)
Theorem first_failure_decides (b : list string) (pre post : list node) :
  (forall e,
     analyze_semantics b (Module pre) = Fallo e ->
     analyze_semantics b (Module (pre ++ post)) = Fallo e) /\
  (analyze_semantics b (Module (pre ++ post)) = Aprobado ->
   analyze_semantics b (Module pre) = Aprobado).
Proof.
  unfold analyze_semantics. rewrite !visit_Module_eq, visit_each_app.
  unfold bind.
  destruct (visit_each (visit b) pre initial_table) as [[e0|[]] st]; simpl.
  - split; [intros e He; exact He|intros H; exact H].
  - split; [intros e He; discriminate He|reflexivity].
Qed.

Lemma first_failure_decides_witness :
  analyze_semantics dir_builtins
    (Module ([ Expr (Name "x") ] ++ [ Assign [Name "x"] (Num (PyInt 1)) ]))
  = Fallo (Variable_no_definida "x").
Proof.
  apply (proj1 (first_failure_decides dir_builtins [ Expr (Name "x") ]
                  [ Assign [Name "x"] (Num (PyInt 1)) ])).
  reflexivity.
Defined.

(** ** Scopes *)

(** X9: whatever node is walked and whatever the outcome, the table keeps
    its number of scopes, the scopes below the innermost one are left as
    they were, and every name the innermost scope bound is still bound in
    it: the walk pushes no scope, pops none, and deletes no binding. *)
Theorem visit_keeps_scopes (b : list string) (n : node) (st st' : symbol_table)
    (r : exn + unit) :
  visit b n st = (r, st') ->
  length st' = length st /\
  (forall i, S i < length st -> st' !! i = st !! i) /\
  (forall (sc : scope) x,
     last st = Some sc -> is_Some (sc !! x) ->
     exists sc' : scope, last st' = Some sc' /\ is_Some (sc' !! x)).
Proof.
  intros Hvisit. pose proof (extends_visit b n st) as Hle.
  rewrite Hvisit in Hle. simpl in Hle.
  destruct Hle as [|pre sc sc' Hsub].
  - split; [reflexivity|]. split; [reflexivity|]. intros sc x H; discriminate H.
  - split; [rewrite !length_app; reflexivity|]. split.
    + intros i Hi. rewrite length_app in Hi. simpl in Hi.
      rewrite !lookup_app_l by lia. reflexivity.
    + intros sc0 x Hlast Hx. rewrite last_snoc in Hlast. injection Hlast as <-.
      exists sc'. split; [apply last_snoc|].
      apply elem_of_dom, Hsub, elem_of_dom, Hx.
Qed.

Lemma visit_keeps_scopes_witness :
  length [ <["x" := mkVarSymbol "x" int]> (∅ : scope) ] = length initial_table.
Proof.
  apply (visit_keeps_scopes dir_builtins (Assign [Name "x"] (Num (PyInt 1)))
           initial_table _ (inr tt)).
  reflexivity.
Defined.

Lemma extends_walk b (l : list node) : extends (visit_each (visit b) l).
Proof.
  apply extends_visit_each, Forall_forall. intros x _. apply extends_visit.
Qed.

Lemma table_le_snoc_inv (pre : symbol_table) (sc : scope) st' :
  table_le (pre ++ [sc]) st' ->
  exists sc' : scope, st' = pre ++ [sc'] /\ dom sc ⊆ dom sc'.
Proof.
  intros Hle. inversion Hle as [Hnil|pre0 sc0 sc' Hsub Heq Heq'].
  - destruct pre; discriminate.
  - apply app_inj_tail in Heq as [-> ->]. exists sc'. split; [reflexivity|exact Hsub].
Qed.

Lemma walk_from_snoc b (l : list node) (pre : symbol_table) (sc : scope) r st' :
  visit_each (visit b) l (pre ++ [sc]) = (r, st') ->
  exists sc' : scope, st' = pre ++ [sc'] /\ dom sc ⊆ dom sc'.
Proof.
  intros Hwalk. apply table_le_snoc_inv.
  pose proof (extends_walk b l (pre ++ [sc])) as Hle.
  rewrite Hwalk in Hle. exact Hle.
Qed.

(** X10: handling a class declaration pushes no scope.  It binds the name
    of the class with the tag 'class' in the innermost scope itself, then
    walks the bases and keywords, the body and the decorators one after the
    other, each from the table the one before left: after the walker
    finishes a class-declaration node, the scopes below the innermost one
    are unchanged, and the innermost scope binds the class, every name it
    bound before, and every name that the walk of the body left bound. *)
Theorem visit_ClassDef_binds_in_current_scope (b : list string) (cname : string)
    (bases keywords body decorator_list : list node) (st st' : symbol_table) :
  visit b (ClassDef cname bases keywords body decorator_list) st = (inr tt, st') ->
  exists (pre : symbol_table) (sc sc_in sc_out sc' : scope),
    st = pre ++ [sc] /\ st' = pre ++ [sc'] /\
    bind (visit_each (visit b) bases) (fun _ => visit_each (visit b) keywords)
      (pre ++ [<[cname := mkVarSymbol cname (tag "class")]> sc])
    = (inr tt, pre ++ [sc_in]) /\
    visit_each (visit b) body (pre ++ [sc_in]) = (inr tt, pre ++ [sc_out]) /\
    visit_each (visit b) decorator_list (pre ++ [sc_out]) = (inr tt, pre ++ [sc']) /\
    dom sc ⊆ dom sc_in /\ cname ∈ dom sc_in /\
    dom sc_in ⊆ dom sc_out /\ dom sc_out ⊆ dom sc' /\
    dom sc ⊆ dom sc' /\ cname ∈ dom sc'.
Proof.
  intros Hvisit.
  destruct (table_cases st) as [->|(pre & sc & ->)]; [discriminate Hvisit|].
  change (visit_ClassDef (visit b)
            (ClassDef cname bases keywords body decorator_list) (pre ++ [sc])
          = (inr tt, st')) in Hvisit.
  unfold visit_ClassDef in Hvisit. cbn [generic_visit] in Hvisit.
  rewrite (bind_ok _ _ _ _ _ (set_symbol_snoc _ _ _ _)) in Hvisit.
  apply bind_inv_ok in Hvisit as ([] & st1 & Hbases & Hvisit).
  destruct (walk_from_snoc _ _ _ _ _ _ Hbases) as (sc1 & -> & Hsub1).
  apply bind_inv_ok in Hvisit as ([] & st2 & Hkws & Hvisit).
  destruct (walk_from_snoc _ _ _ _ _ _ Hkws) as (sc2 & -> & Hsub2).
  apply bind_inv_ok in Hvisit as ([] & st3 & Hbody & Hdecs).
  destruct (walk_from_snoc _ _ _ _ _ _ Hbody) as (sc3 & -> & Hsub3).
  destruct (walk_from_snoc _ _ _ _ _ _ Hdecs) as (sc4 & -> & Hsub4).
  rewrite dom_insert in Hsub1.
  exists pre, sc, sc2, sc3, sc4.
  split; [reflexivity|]. split; [reflexivity|].
  split; [rewrite (bind_ok _ _ _ _ _ Hbases); exact Hkws|].
  split; [exact Hbody|]. split; [exact Hdecs|].
  split; [set_solver|]. split; [set_solver|].
  split; [exact Hsub3|]. split; [exact Hsub4|].
  split; set_solver.
Qed.

Lemma visit_ClassDef_binds_in_current_scope_witness :
  exists (pre : symbol_table) (sc sc_in sc_out sc' : scope),
    initial_table = pre ++ [sc] /\
    [ <["x" := mkVarSymbol "x" int]> (<["C" := mkVarSymbol "C" (tag "class")]> ∅) ]
    = pre ++ [sc'] /\
    bind (visit_each (visit dir_builtins) []) (fun _ => visit_each (visit dir_builtins) [])
      (pre ++ [<["C" := mkVarSymbol "C" (tag "class")]> sc])
    = (inr tt, pre ++ [sc_in]) /\
    visit_each (visit dir_builtins) [ Assign [Name "x"] (Num (PyInt 1)) ] (pre ++ [sc_in])
    = (inr tt, pre ++ [sc_out]) /\
    visit_each (visit dir_builtins) [] (pre ++ [sc_out]) = (inr tt, pre ++ [sc']) /\
    dom sc ⊆ dom sc_in /\ "C" ∈ dom sc_in /\
    dom sc_in ⊆ dom sc_out /\ dom sc_out ⊆ dom sc' /\
    dom sc ⊆ dom sc' /\ "C" ∈ dom sc'.
Proof.
  apply (visit_ClassDef_binds_in_current_scope dir_builtins "C" [] []
           [ Assign [Name "x"] (Num (PyInt 1)) ] []).
  reflexivity.
Defined.

(** ** What the walk leaves untouched *)

Lemma unchanged_bind {A B} (m : M A) (f : A -> M B) st :
  snd (m st) = st -> (forall a, snd (f a st) = st) -> snd (bind m f st) = st.
Proof.
  unfold bind. destruct (m st) as [[e|a] st1]; simpl; intros ->.
  - reflexivity.
  - intros Hf. apply Hf.
Qed.

Lemma unchanged_visit_each b (l : list node) :
  Forall (fun n => forall st, binds_nothing n = true -> snd (visit b n st) = st) l ->
  forall st, forallb binds_nothing l = true -> snd (visit_each (visit b) l st) = st.
Proof.
  induction 1 as [|x l Hx _ IH]; intros st Hall; simpl; [reflexivity|].
  simpl in Hall. apply andb_true_iff in Hall as [H1 H2].
  apply unchanged_bind; [apply Hx, H1|intros _; apply IH, H2].
Qed.

Lemma unchanged_visit_field b (v : option node) :
  on_field (fun n => forall st, binds_nothing n = true -> snd (visit b n st) = st) v ->
  forall st,
    match v with Some x => binds_nothing x | None => true end = true ->
    snd (visit_field (visit b) v st) = st.
Proof. destruct v; simpl; intros Hv st Hb; [apply Hv, Hb|reflexivity]. Qed.

Lemma unchanged_visit_each_field b (l : list (option node)) :
  Forall (on_field (fun n => forall st, binds_nothing n = true -> snd (visit b n st) = st)) l ->
  forall st,
    forallb (fun o => match o with Some v => binds_nothing v | None => true end) l = true ->
    snd (visit_each_field (visit b) l st) = st.
Proof.
  induction 1 as [|x l Hx _ IH]; intros st Hall; simpl; [reflexivity|].
  simpl in Hall. apply andb_true_iff in Hall as [H1 H2].
  apply unchanged_bind; [apply unchanged_visit_field; assumption|intros _; apply IH, H2].
Qed.

(** X11: only declarations and assignments write to the table.  Walking a
    tree in which the walk meets no function declaration, no class
    declaration and no assignment leaves the table exactly as it was,
    whether the walk passes or fails; in particular walking an expression
    never binds a name. *)
Theorem visit_without_binders_keeps_table (b : list string) (n : node) :
  forall st : symbol_table, binds_nothing n = true -> snd (visit b n st) = st.
Proof.
  induction n as
    [ body IHbody
    | fname fargs body decs returns IHfargs IHbody IHdecs IHreturns
    | cname bases kws body decs IHbases IHkws IHbody IHdecs
    | value IHvalue
    | targets value IHtargets IHvalue
    | value IHvalue
    |
    | l op r IHl IHr
    | func args kws IHfunc IHargs IHkws
    | num | str_ | value attr IHvalue | id
    | posonlyargs params vararg kwonlyargs kw_defaults kwarg defaults
        IH1 IH2 IH3 IH4 IH5 IH6 IH7
    | a annotation IHannotation
    | a value IHvalue ] using node_ind';
    intros st Hn; cbn [binds_nothing] in Hn; try discriminate Hn.
  - apply unchanged_visit_each; assumption.
  - apply unchanged_visit_field; assumption.
  - apply IHvalue, Hn.
  - reflexivity.
  - apply andb_true_iff in Hn as [Hl Hr].
    rewrite visit_BinOp_eq. unfold visit_BinOp.
    apply unchanged_bind; [apply IHl, Hl|intros _].
    apply unchanged_bind; [apply IHr, Hr|intros _].
    apply unchanged_bind; [reflexivity|intros lt].
    apply unchanged_bind; [reflexivity|intros rt].
    destruct (bool_decide _); reflexivity.
  - rewrite visit_Call_eq. unfold visit_Call.
    apply unchanged_bind; [|intros _; apply unchanged_visit_each; assumption].
    destruct func; try reflexivity.
    destruct (bool_decide _); reflexivity.
  - reflexivity.
  - reflexivity.
  - apply IHvalue, Hn.
  - rewrite visit_Name_eq. destruct (in_any_scope id st); reflexivity.
  - apply andb_true_iff in Hn as [Hn Hdefaults].
    apply andb_true_iff in Hn as [Hn Hkwarg].
    apply andb_true_iff in Hn as [Hn Hkw_defaults].
    apply andb_true_iff in Hn as [Hn Hkwonly].
    apply andb_true_iff in Hn as [Hn Hvararg].
    apply andb_true_iff in Hn as [Hposonly Hparams].
    cbn [visit generic_visit].
    apply unchanged_bind; [apply unchanged_visit_each; assumption|intros _].
    apply unchanged_bind; [apply unchanged_visit_each; assumption|intros _].
    apply unchanged_bind; [apply unchanged_visit_field; assumption|intros _].
    apply unchanged_bind; [apply unchanged_visit_each; assumption|intros _].
    apply unchanged_bind; [apply unchanged_visit_each_field; assumption|intros _].
    apply unchanged_bind; [apply unchanged_visit_field; assumption|intros _].
    apply unchanged_visit_each; assumption.
  - apply unchanged_visit_field; assumption.
  - apply IHvalue, Hn.
Qed.

Lemma visit_without_binders_keeps_table_witness :
  snd (visit dir_builtins
         (Expr (Call (Name "print") [BinOp (Name "x") Add (Num (PyInt 1))] []))
         [ {[ "x" := mkVarSymbol "x" str ]} ])
  = [ {[ "x" := mkVarSymbol "x" str ]} ].
Proof.
  apply (visit_without_binders_keeps_table dir_builtins
           (Expr (Call (Name "print") [BinOp (Name "x") Add (Num (PyInt 1))] []))).
  reflexivity.
Defined.

(** ** The symbols the table holds *)

Lemma get_value_type_stored (n : node) (st : symbol_table) (t : pytype) :
  well_formed_table st -> get_value_type n st = inr t -> t ∈ stored_types.
Proof.
  intros Hwf. revert t.
  induction n using node_ind'; intros t; simpl; try discriminate.
  - destruct (get_value_type n1 st) as [e|lt]; [discriminate|].
    destruct (get_value_type n2 st) as [e|rt]; [discriminate|].
    destruct (_ || _); [|discriminate].
    intros [= <-]. unfold stored_types. set_solver.
  - intros [= <-]. destruct n; unfold stored_types; set_solver.
  - intros [= <-]. unfold stored_types. set_solver.
  - destruct (last st) as [sc|] eqn:Hlast; [|discriminate].
    destruct (sc !! id) as [sym|] eqn:Hid; [|discriminate].
    intros [= <-]. apply (Hwf sc id sym Hlast Hid).
Qed.

Lemma keeps_set_symbol k t :
  t ∈ stored_types -> keeps_well_formed (set_symbol k t).
Proof.
  intros Ht st Hwf.
  destruct (table_cases st) as [->|(pre & sc & ->)]; [exact Hwf|].
  rewrite set_symbol_snoc. simpl.
  intros sc' k' sym Hlast Hk'. rewrite last_snoc in Hlast. injection Hlast as <-.
  destruct (decide (k = k')) as [->|Hne].
  - rewrite lookup_insert_eq in Hk'. injection Hk' as <-. split; [reflexivity|exact Ht].
  - rewrite lookup_insert_ne in Hk' by exact Hne.
    apply (Hwf sc k' sym); [apply last_snoc|exact Hk'].
Qed.

Lemma keeps_ret {A} (a : A) : keeps_well_formed (ret a).
Proof. intros st Hwf. exact Hwf. Qed.

Lemma keeps_raise {A} e : keeps_well_formed (@raise A e).
Proof. intros st Hwf. exact Hwf. Qed.

Lemma keeps_reading {A} (f : symbol_table -> exn + A) : keeps_well_formed (reading f).
Proof. intros st Hwf. exact Hwf. Qed.

Lemma keeps_bind {A B} (m : M A) (f : A -> M B) :
  keeps_well_formed m -> (forall a, keeps_well_formed (f a)) ->
  keeps_well_formed (bind m f).
Proof.
  intros Hm Hf st Hwf. unfold bind.
  specialize (Hm st Hwf). destruct (m st) as [[e|a] st1]; simpl in *.
  - exact Hm.
  - apply Hf, Hm.
Qed.

Lemma keeps_visit_Name x : keeps_well_formed (visit_Name (Name x)).
Proof. intros st Hwf. simpl. destruct (in_any_scope x st); exact Hwf. Qed.

Lemma keeps_visit_each v (l : list node) :
  Forall (fun n => keeps_well_formed (v n)) l -> keeps_well_formed (visit_each v l).
Proof.
  induction 1 as [|x l Hx _ IH]; simpl.
  - apply keeps_ret.
  - apply keeps_bind; [exact Hx|intros _; exact IH].
Qed.

Lemma keeps_visit_field v (o : option node) :
  on_field (fun n => keeps_well_formed (v n)) o -> keeps_well_formed (visit_field v o).
Proof. destruct o; simpl; [trivial|intros _; apply keeps_ret]. Qed.

Lemma keeps_visit_each_field v (l : list (option node)) :
  Forall (on_field (fun n => keeps_well_formed (v n))) l ->
  keeps_well_formed (visit_each_field v l).
Proof.
  induction 1 as [|x l Hx _ IH]; simpl.
  - apply keeps_ret.
  - apply keeps_bind; [apply keeps_visit_field, Hx|intros _; exact IH].
Qed.

Lemma stored_variable : tag "variable" ∈ stored_types.
Proof. unfold stored_types. set_solver. Qed.

Lemma stored_function : tag "function" ∈ stored_types.
Proof. unfold stored_types. set_solver. Qed.

Lemma stored_class : tag "class" ∈ stored_types.
Proof. unfold stored_types. set_solver. Qed.

Lemma keeps_set_arguments (l : list node) : keeps_well_formed (set_arguments l).
Proof.
  induction l as [|a l IH]; simpl.
  - apply keeps_ret.
  - destruct a; try apply keeps_raise.
    apply keeps_bind; [apply keeps_set_symbol, stored_variable|intros _; exact IH].
Qed.

Lemma keeps_assign_targets (targets : list node) value :
  keeps_well_formed (assign_targets targets value).
Proof.
  induction targets as [|t targets IH]; [apply keeps_ret|].
  intros st Hwf. destruct (is_Name t) eqn:Ht.
  - destruct t; try discriminate Ht.
    rewrite assign_targets_Name.
    destruct (get_value_type value st) as [e|ty] eqn:Hty; [exact Hwf|].
    apply (keeps_bind (set_symbol id ty) (fun _ => assign_targets targets value));
      [|intros _; exact IH|exact Hwf].
    apply keeps_set_symbol, (get_value_type_stored value st ty Hwf Hty).
  - rewrite assign_targets_not_Name by exact Ht. exact Hwf.
Qed.

Ltac keeps_step :=
  first
    [ assumption
    | apply keeps_ret
    | apply keeps_raise
    | apply keeps_reading
    | apply keeps_set_symbol, stored_function
    | apply keeps_set_symbol, stored_class
    | apply keeps_set_arguments
    | apply keeps_assign_targets
    | apply keeps_visit_Name
    | apply keeps_visit_each; assumption
    | apply keeps_visit_field; assumption
    | apply keeps_visit_each_field; assumption
    | apply keeps_bind; [|intros ?] ].

Lemma keeps_visit b (n : node) : keeps_well_formed (visit b n).
Proof.
  induction n using node_ind'; simpl; unfold visit_field in *;
    repeat keeps_step.
  - destruct n; repeat keeps_step.
  - destruct (bool_decide _); repeat keeps_step.
  - destruct n; repeat keeps_step.
    destruct (bool_decide _); repeat keeps_step.
Qed.

(** X12: every symbol the analyzer holds is stored under its own name and
    has one of six types: [int], [float], [str], or the tags 'function',
    'variable' and 'class'.  Whatever program is analysed, and whether the
    analysis passes or fails, the scope of the table left behind has only
    such symbols. *)
Theorem analyzer_table_well_formed (b : list string) (body : list node)
    (r : exn + unit) (st : symbol_table) :
  visit b (Module body) initial_table = (r, st) ->
  exists sc : scope,
    st = [sc] /\
    forall k sym, sc !! k = Some sym ->
      name sym = k /\ type sym ∈ stored_types.
Proof.
  intros Hwalk. rewrite visit_Module_eq in Hwalk.
  destruct (walk_keeps_one_scope _ _ _ _ Hwalk) as [sc ->].
  exists sc. split; [reflexivity|].
  assert (Hwf : well_formed_table [sc]).
  { change [sc] with (snd (r, [sc])). rewrite <- Hwalk, <- visit_Module_eq.
    apply keeps_visit. intros sc0 k sym Hlast Hk.
    injection Hlast as <-. rewrite lookup_empty in Hk. discriminate Hk. }
  intros k sym Hk. apply (Hwf sc k sym); [reflexivity|exact Hk].
Qed.

Lemma analyzer_table_well_formed_witness :
  exists sc : scope,
    [ <["x" := mkVarSymbol "x" float]> (∅ : scope) ] = [sc] /\
    forall k sym, sc !! k = Some sym ->
      name sym = k /\ type sym ∈ stored_types.
Proof.
  apply (analyzer_table_well_formed dir_builtins
           [ Assign [Name "x"] (Num (PyFloat 5 (-1))) ] (inr tt)).
  reflexivity.
Defined.

(** ** The exceptions of a walk *)

Lemma table_le_nonempty st st' : table_le st st' -> st <> [] -> st' <> [].
Proof.
  intros [|pre sc sc' _] Hne; [exact Hne|].
  intros Heq. destruct pre; discriminate Heq.
Qed.

Lemma diagnostic_Variable x : diagnostic (Variable_no_definida x).
Proof. left. exists x. reflexivity. Qed.

Lemma diagnostic_Funcion f : diagnostic (Funcion_no_definida f).
Proof. right; left. exists f. reflexivity. Qed.

Lemma diagnostic_Objetivo : diagnostic Objetivo_no_soportado.
Proof. right; right; left. reflexivity. Qed.

Lemma diagnostic_Coincidencia l r : diagnostic (Coincidencia_incorrecta l r).
Proof. right; right; right; left. exists l, r. reflexivity. Qed.

Lemma diagnostic_TypeError n : diagnostic (TypeError n).
Proof. right; right; right; right. exists n. reflexivity. Qed.

Lemma get_value_type_reports (n : node) (st : symbol_table) e :
  st <> [] -> get_value_type n st = inl e -> diagnostic e.
Proof.
  intros Hne. revert e.
  induction n using node_ind'; intros e; simpl;
    try (intros [= <-]; apply diagnostic_TypeError); try discriminate.
  - destruct (get_value_type n1 st) as [e1|lt]; [intros [= <-]; apply IHn1; reflexivity|].
    destruct (get_value_type n2 st) as [e2|rt]; [intros [= <-]; apply IHn2; reflexivity|].
    destruct (_ || _); [discriminate|].
    intros [= <-]. apply diagnostic_Coincidencia.
  - destruct (table_cases st) as [->|(pre & sc & ->)]; [contradiction|].
    rewrite last_snoc. destruct (sc !! id); [discriminate|].
    intros [= <-]. apply diagnostic_Variable.
Qed.

Lemma reports_ret {A} (a : A) : reports (ret a).
Proof. intros st e st' _ H. discriminate H. Qed.

Lemma reports_raise {A} e : diagnostic e -> reports (@raise A e).
Proof. intros He st e' st' _ [= <- _]. exact He. Qed.

Lemma reports_bind {A B} (m : M A) (f : A -> M B) :
  reports m -> extends m -> (forall a, reports (f a)) -> reports (bind m f).
Proof.
  intros Hm Hext Hf st e st' Hne. unfold bind.
  specialize (Hext st). destruct (m st) as [[e1|a] st1] eqn:Hmst; simpl in Hext.
  - intros [= <- _]. apply (Hm st e1 st1 Hne Hmst).
  - apply Hf. apply (table_le_nonempty st); assumption.
Qed.

Lemma reports_set_symbol k t : reports (set_symbol k t).
Proof.
  intros st e st' Hne.
  destruct (table_cases st) as [->|(pre & sc & ->)]; [contradiction|].
  rewrite set_symbol_snoc. discriminate.
Qed.

Lemma reports_get_value_type (n : node) : reports (reading (get_value_type n)).
Proof.
  intros st e st' Hne. unfold reading. intros [= H _].
  apply (get_value_type_reports n st e Hne H).
Qed.

Lemma reports_set_arguments (l : list node) :
  forallb is_arg l = true -> reports (set_arguments l).
Proof.
  induction l as [|a l IH]; simpl; intros Hall.
  - apply reports_ret.
  - apply andb_true_iff in Hall as [Ha Hl].
    destruct a; try discriminate Ha.
    apply reports_bind;
      [apply reports_set_symbol|apply extends_set_symbol|intros _; apply IH, Hl].
Qed.

Lemma reports_assign_targets (targets : list node) value :
  reports (assign_targets targets value).
Proof.
  induction targets as [|t targets IH]; simpl.
  - apply reports_ret.
  - destruct t; try (apply reports_raise, diagnostic_Objetivo).
    apply reports_bind;
      [apply reports_get_value_type|apply extends_reading|intros ty].
    apply reports_bind;
      [apply reports_set_symbol|apply extends_set_symbol|intros _; exact IH].
Qed.

Lemma reports_visit_each b (l : list node) :
  Forall (fun n => parser_shaped n = true -> reports (visit b n)) l ->
  forallb parser_shaped l = true ->
  reports (visit_each (visit b) l).
Proof.
  induction 1 as [|x l Hx _ IH]; simpl; intros Hall.
  - apply reports_ret.
  - apply andb_true_iff in Hall as [H1 H2].
    apply reports_bind; [apply Hx, H1|apply extends_visit|intros _; apply IH, H2].
Qed.

Lemma reports_visit_field b (v : option node) :
  on_field (fun n => parser_shaped n = true -> reports (visit b n)) v ->
  match v with Some x => parser_shaped x | None => true end = true ->
  reports (visit_field (visit b) v).
Proof. destruct v; simpl; intros Hv Hs; [apply Hv, Hs|apply reports_ret]. Qed.

Lemma extends_field_walk b (v : option node) : extends (visit_field (visit b) v).
Proof. destruct v; simpl; [apply extends_visit|apply extends_ret]. Qed.

Lemma extends_fields_walk b (l : list (option node)) :
  extends (visit_each_field (visit b) l).
Proof.
  induction l as [|v l IH]; simpl; [apply extends_ret|].
  apply extends_bind; [apply extends_field_walk|intros _; exact IH].
Qed.

Lemma reports_visit_each_field b (l : list (option node)) :
  Forall (on_field (fun n => parser_shaped n = true -> reports (visit b n))) l ->
  forallb (fun o => match o with Some v => parser_shaped v | None => true end) l = true ->
  reports (visit_each_field (visit b) l).
Proof.
  induction 1 as [|x l Hx _ IH]; simpl; intros Hall.
  - apply reports_ret.
  - apply andb_true_iff in Hall as [H1 H2].
    apply reports_bind;
      [apply reports_visit_field; assumption|apply extends_field_walk
      |intros _; apply IH, H2].
Qed.

Lemma reports_visit b (n : node) : parser_shaped n = true -> reports (visit b n).
Proof.
  induction n as
    [ body IHbody
    | fname fargs body decs returns IHfargs IHbody IHdecs IHreturns
    | cname bases kws body decs IHbases IHkws IHbody IHdecs
    | value IHvalue
    | targets value IHtargets IHvalue
    | value IHvalue
    |
    | l op r IHl IHr
    | func args kws IHfunc IHargs IHkws
    | num | str_ | value attr IHvalue | id
    | posonlyargs params vararg kwonlyargs kw_defaults kwarg defaults
        IH1 IH2 IH3 IH4 IH5 IH6 IH7
    | a annotation IHannotation
    | a value IHvalue ] using node_ind';
    intros Hn; cbn [parser_shaped] in Hn.
  - apply reports_visit_each; assumption.
  - apply andb_true_iff in Hn as [Hn Hreturns].
    apply andb_true_iff in Hn as [Hn Hdecs].
    apply andb_true_iff in Hn as [Hn Hbody].
    apply andb_true_iff in Hn as [Hparams Hfargs].
    destruct fargs as
      [ | | | | | | | | | | | |
      | posonlyargs params vararg kwonlyargs kw_defaults kwarg defaults | | ];
      try discriminate Hparams.
    cbn [visit]. unfold visit_FunctionDef. cbn [generic_visit].
    apply reports_bind; [apply reports_set_symbol|apply extends_set_symbol|intros _].
    apply reports_bind;
      [apply reports_set_arguments, Hparams|apply extends_set_arguments|intros _].
    apply reports_bind; [apply IHfargs, Hfargs|apply extends_visit|intros _].
    apply reports_bind;
      [apply reports_visit_each; assumption|apply extends_walk|intros _].
    apply reports_bind;
      [apply reports_visit_each; assumption|apply extends_walk|intros _].
    apply reports_visit_field; assumption.
  - apply andb_true_iff in Hn as [Hn Hdecs].
    apply andb_true_iff in Hn as [Hn Hbody].
    apply andb_true_iff in Hn as [Hbases Hkws].
    cbn [visit]. unfold visit_ClassDef. cbn [generic_visit].
    apply reports_bind; [apply reports_set_symbol|apply extends_set_symbol|intros _].
    apply reports_bind;
      [apply reports_visit_each; assumption|apply extends_walk|intros _].
    apply reports_bind;
      [apply reports_visit_each; assumption|apply extends_walk|intros _].
    apply reports_bind;
      [apply reports_visit_each; assumption|apply extends_walk|intros _].
    apply reports_visit_each; assumption.
  - apply reports_visit_field; assumption.
  - apply reports_assign_targets.
  - apply IHvalue, Hn.
  - apply reports_ret.
  - apply andb_true_iff in Hn as [Hl Hr].
    cbn [visit]. unfold visit_BinOp.
    apply reports_bind; [apply IHl, Hl|apply extends_visit|intros _].
    apply reports_bind; [apply IHr, Hr|apply extends_visit|intros _].
    apply reports_bind; [apply reports_get_value_type|apply extends_reading|intros lt].
    apply reports_bind; [apply reports_get_value_type|apply extends_reading|intros rt].
    destruct (bool_decide _);
      [apply reports_ret|apply reports_raise, diagnostic_Coincidencia].
  - cbn [visit]. unfold visit_Call.
    apply reports_bind; [| |intros _; apply reports_visit_each; assumption].
    + destruct func; try apply reports_ret.
      destruct (bool_decide _);
        [apply reports_ret|apply reports_raise, diagnostic_Funcion].
    + destruct func; try apply extends_ret.
      destruct (bool_decide _); [apply extends_ret|apply extends_raise].
  - apply reports_ret.
  - apply reports_ret.
  - apply IHvalue, Hn.
  - intros st e st' _. rewrite visit_Name_eq.
    destruct (in_any_scope id st); [discriminate|].
    intros [= <- _]. apply diagnostic_Variable.
  - apply andb_true_iff in Hn as [Hn Hdefaults].
    apply andb_true_iff in Hn as [Hn Hkwarg].
    apply andb_true_iff in Hn as [Hn Hkw_defaults].
    apply andb_true_iff in Hn as [Hn Hkwonly].
    apply andb_true_iff in Hn as [Hn Hvararg].
    apply andb_true_iff in Hn as [Hposonly Hparams].
    cbn [visit generic_visit].
    apply reports_bind;
      [apply reports_visit_each; assumption|apply extends_walk|intros _].
    apply reports_bind;
      [apply reports_visit_each; assumption|apply extends_walk|intros _].
    apply reports_bind;
      [apply reports_visit_field; assumption|apply extends_field_walk|intros _].
    apply reports_bind;
      [apply reports_visit_each; assumption|apply extends_walk|intros _].
    apply reports_bind;
      [apply reports_visit_each_field; assumption|apply extends_fields_walk|intros _].
    apply reports_bind;
      [apply reports_visit_field; assumption|apply extends_field_walk|intros _].
    apply reports_visit_each; assumption.
  - apply reports_visit_field; assumption.
  - apply IHvalue, Hn.
Qed.

(** X13: the failures of an analysis are the analyzer's own.  For every
    tree shaped as the parser builds it, a failure verdict carries one of
    five diagnostics: undefined variable, undefined function, unsupported
    assignment target, type mismatch of a binary operation, or the
    [TypeError] of an unknown node; [symbol_table[-1]] never fails on an
    empty table and no field is read from a node that lacks it. *)
Theorem failure_is_a_diagnostic (b : list string) (tree : node) (e : exn) :
  parser_shaped tree = true ->
  analyze_semantics b tree = Fallo e ->
  diagnostic e.
Proof.
  intros Hshape. unfold analyze_semantics.
  destruct (visit b tree initial_table) as [[e0|[]] st] eqn:Hvisit; simpl;
    [|discriminate].
  intros [= <-].
  apply (reports_visit b tree Hshape initial_table e0 st); [discriminate|exact Hvisit].
Qed.

Lemma failure_is_a_diagnostic_witness :
  diagnostic (Funcion_no_definida "f").
Proof.
  apply (failure_is_a_diagnostic dir_builtins
           (Module [ FunctionDef "f" (arguments [] [arg "a" None] None [] [] None [])
                       [Pass] [] None;
                     Expr (Call (Name "f") [Num (PyInt 2)] []) ])).
  - reflexivity.
  - vm_compute. reflexivity.
Defined.

(** ** Chained operations *)

(** X14: the result of a binary operation can only be combined with a
    number.  A binary operation whose left operand is itself a binary
    operation, and whose right operand has a type other than [int] and
    [float], fails with the type-mismatch error against [float] once its
    operands are walked: the chained concatenation ["a" + "b" + "c"] is
    rejected although ["a" + "b"] is accepted. *)
Theorem chained_operation_needs_numbers (b : list string) (l1 r1 r : node)
    (op1 op : operator) (st st1 st2 : symbol_table) (tl t : pytype) :
  visit b (BinOp l1 op1 r1) st = (inr tt, st1) ->
  visit b r st1 = (inr tt, st2) ->
  get_value_type (BinOp l1 op1 r1) st2 = inr tl ->
  get_value_type r st2 = inr t ->
  t <> int -> t <> float ->
  visit b (BinOp (BinOp l1 op1 r1) op r) st
  = (inl (Coincidencia_incorrecta float t), st2).
Proof.
  intros Hinner Hr Htl Ht Hint Hfloat.
  assert (tl = float) as ->.
  { simpl in Htl.
    destruct (get_value_type l1 st2) as [e|t1]; [discriminate|].
    destruct (get_value_type r1 st2) as [e|t2]; [discriminate|].
    destruct (_ || _); [|discriminate].
    injection Htl as <-. reflexivity. }
  rewrite (visit_BinOp_eq b (BinOp l1 op1 r1) op r). unfold visit_BinOp at 1.
  rewrite (bind_ok _ _ _ _ _ Hinner), (bind_ok _ _ _ _ _ Hr).
  unfold bind, reading. rewrite Htl, Ht.
  rewrite bool_decide_eq_false_2; [reflexivity|].
  rewrite BinOp_pairs_spec.
  intros [[_ [H|H]]|[H _]]; [contradiction|contradiction|discriminate H].
Qed.

Lemma chained_operation_needs_numbers_witness :
  visit dir_builtins
    (BinOp (BinOp (Str "a") Add (Str "b")) Add (Str "c")) initial_table
  = (inl (Coincidencia_incorrecta float str), initial_table).
Proof.
  apply (chained_operation_needs_numbers dir_builtins (Str "a") (Str "b") (Str "c")
           Add Add initial_table initial_table initial_table float str);
    try reflexivity; discriminate.
Defined.

(** ** The body of a function *)

Lemma visit_from_snoc b (n : node) (pre : symbol_table) (sc : scope) r st' :
  visit b n (pre ++ [sc]) = (r, st') ->
  exists sc' : scope, st' = pre ++ [sc'] /\ dom sc ⊆ dom sc'.
Proof.
  intros Hvisit. apply table_le_snoc_inv.
  pose proof (extends_visit b n (pre ++ [sc])) as Hle.
  rewrite Hvisit in Hle. exact Hle.
Qed.

(** X15: the parameters and the body of a function are walked with the
    function and its parameters already bound, in the scope of the
    declaration.  When the walk of a function declaration succeeds, its
    [arguments] node (annotations and default values) was walked from a
    table whose innermost scope binds the function and every parameter, its
    body was walked next in that same scope, and every name the body left
    bound is bound after the declaration. *)
Theorem visit_FunctionDef_walks_in_current_scope (b : list string) (fname : string)
    (posonlyargs params : list node) (vararg : option node) (kwonlyargs : list node)
    (kw_defaults : list (option node)) (kwarg : option node) (defaults : list node)
    (body decorator_list : list node) (returns : option node)
    (pre : symbol_table) (sc : scope) (st' : symbol_table) :
  visit b
    (FunctionDef fname
       (arguments posonlyargs params vararg kwonlyargs kw_defaults kwarg defaults)
       body decorator_list returns) (pre ++ [sc])
  = (inr tt, st') ->
  exists sc_params sc_in sc_out sc' : scope,
    st' = pre ++ [sc'] /\
    fname ∈ dom sc_params /\
    (forall a, a ∈ parameter_names params -> a ∈ dom sc_params) /\
    visit b (arguments posonlyargs params vararg kwonlyargs kw_defaults kwarg defaults)
      (pre ++ [sc_params]) = (inr tt, pre ++ [sc_in]) /\
    visit_each (visit b) body (pre ++ [sc_in]) = (inr tt, pre ++ [sc_out]) /\
    dom sc_out ⊆ dom sc'.
Proof.
  intros Hvisit.
  change (visit_FunctionDef (visit b)
            (FunctionDef fname
               (arguments posonlyargs params vararg kwonlyargs kw_defaults
                  kwarg defaults) body decorator_list returns) (pre ++ [sc])
          = (inr tt, st')) in Hvisit.
  unfold visit_FunctionDef in Hvisit. cbn [generic_visit] in Hvisit.
  rewrite (bind_ok _ _ _ _ _ (set_symbol_snoc _ _ _ _)) in Hvisit.
  apply bind_inv_ok in Hvisit as ([] & st1 & Hparams & Hvisit).
  apply set_arguments_binds in Hparams as (sc1 & -> & Hsub1 & Hall).
  apply bind_inv_ok in Hvisit as ([] & st2 & Hargs & Hvisit).
  destruct (visit_from_snoc _ _ _ _ _ _ Hargs) as (sc2 & -> & Hsub2).
  apply bind_inv_ok in Hvisit as ([] & st3 & Hbody & Hvisit).
  destruct (walk_from_snoc _ _ _ _ _ _ Hbody) as (sc3 & -> & Hsub3).
  apply bind_inv_ok in Hvisit as ([] & st4 & Hdecs & Hret).
  apply walk_from_snoc in Hdecs as (sc4 & -> & Hsub4).
  assert (Hle : table_le (pre ++ [sc4]) st').
  { pose proof (extends_field_walk b returns (pre ++ [sc4])) as Hle.
    rewrite Hret in Hle. exact Hle. }
  apply table_le_snoc_inv in Hle as (sc' & -> & Hsub5).
  rewrite dom_insert in Hsub1.
  exists sc1, sc2, sc3, sc'.
  split; [reflexivity|]. split; [set_solver|]. split; [exact Hall|].
  split; [exact Hargs|]. split; [exact Hbody|]. set_solver.
Qed.

Lemma visit_FunctionDef_walks_in_current_scope_witness :
  exists sc_params sc_in sc_out sc' : scope,
    [ <["a" := mkVarSymbol "a" (tag "variable")]>
        (<["f" := mkVarSymbol "f" (tag "function")]> ∅) ] = [] ++ [sc'] /\
    "f" ∈ dom sc_params /\
    (forall a, a ∈ parameter_names [arg "a" None] -> a ∈ dom sc_params) /\
    visit dir_builtins (arguments [] [arg "a" None] None [] [] None [Name "a"])
      ([] ++ [sc_params]) = (inr tt, [] ++ [sc_in]) /\
    visit_each (visit dir_builtins) [Expr (Name "f")] ([] ++ [sc_in])
    = (inr tt, [] ++ [sc_out]) /\
    dom sc_out ⊆ dom sc'.
Proof.
  apply (visit_FunctionDef_walks_in_current_scope dir_builtins "f"
           [] [arg "a" None] None [] [] None [Name "a"] [Expr (Name "f")] [] None
           [] ∅).
  reflexivity.
Defined.
